(** * Video Timeline Analyzer: the React front end and the segmenter contract

    A shallow embedding of the two stateful React components of the
    repository,

    - [VideoUpload] (frontend/src/components/VideoUpload.js): file
      validation, the upload request and the status-polling monitor;
    - [Timeline] (frontend/src/pages/Timeline.js): the segment filter and
      the topic toggle;

    together with a model of the Screen-Change Segmenter, whose Python
    source is not part of the front end and is therefore taken from the
    design document.

    React state cells ([useState]) become record fields, [useRef] cells
    become fields holding the referenced value, and everything the
    component does to the browser (timers, HTTP requests, alerts, console
    output, the [onUploadComplete] callback) is recorded in an explicit
    browser record that the handlers thread through. *)

From Stdlib Require Import ZArith QArith Lqa String Ascii List Lia Bool.
From stdpp Require Import base option list gmap strings.
Import ListNotations.

Local Open Scope string_scope.
Local Open Scope Z_scope.

(** ** JavaScript primitives used by the components *)

Module Js.

(** [Array.prototype.includes] on an array of strings. *)
Definition includes (l : list string) (x : string) : bool :=
  existsb (String.eqb x) l.

(** [Array.prototype.some]. *)
Definition some {A : Type} (p : A -> bool) (l : list A) : bool :=
  existsb p l.

(** [String.prototype.includes]: [t] occurs in [s] as a contiguous
    substring; the empty string occurs everywhere. *)
Fixpoint str_includes (s t : string) : bool :=
  String.prefix t s ||
  match s with
  | EmptyString => false
  | String _ s' => str_includes s' t
  end.

(** A JavaScript string used as a condition: only [''] is falsy. *)
Definition truthy_str (s : string) : bool :=
  match s with EmptyString => false | _ => true end.

(** A timer handle used as a condition: [null] and [0] are falsy. *)
Definition truthy_handle (h : option nat) : bool :=
  match h with
  | None => false
  | Some n => negb (Nat.eqb n 0)
  end.

(** [Math.round (a * 100 / b)] for integers [a] and [b].  The quotient is
    taken exactly; [None] stands for the non-finite results ([NaN],
    [Infinity]) that JavaScript produces when [b] is [0].  JavaScript
    computes in doubles: for [0 <= a <= b < 2 ^ 45] the product is exact,
    the quotient is off by less than [2 ^ -46], and a quotient that is not
    a half-integer lies at least [1 / (2 * b)] from the nearest one, so
    [Math.round] returns what the exact quotient rounds to.  Beyond that
    range the two can differ. *)
Definition round_percent (a b : Z) : option Z :=
  if b =? 0 then None
  else Some ((2 * (a * 100) + b) / (2 * b)).

End Js.

(** ** The upload component *)

Module File.
(** The fields of a DOM [File] that the component reads. *)
Record t : Type := mk { name : string; type : string; size : Z }.
End File.

Module Status.
(** The body of a [GET /status/<session>] response. *)
Record t : Type := mk { status : string; progress : Z; message : string }.
End Status.

Module VideoUpload.

(** The [useState] cells and the [processingInterval] ref. *)
Record Component : Type := mkComponent {
  uploadState : string;
  uploadProgress : option Z;
  processProgress : Z;
  statusMessage : string;
  sessionId : option string;
  isDragOver : bool;
  processingInterval : option nat
}.

(** What the component has done to its surroundings. *)
Record Browser : Type := mkBrowser {
  (** live [setInterval] timers, each with the session id its callback
      closed over *)
  intervals : gmap nat string;
  (** the handle the next [setInterval] returns *)
  nextTimer : nat;
  (** [POST /upload] requests in flight *)
  uploads : list File.t;
  (** every [GET /status/<session>] issued, newest first, tagged with
      the timer whose callback issued it *)
  requests : list (nat * string);
  alerts : list string;
  console : list string;
  (** calls of the [onUploadComplete] prop, newest first *)
  completions : list (string * Status.t)
}.

Record World : Type := mkWorld {
  ui : Component;
  env : Browser;
  (** whether the parent passed an [onUploadComplete] prop *)
  onUploadComplete : bool
}.

Definition initComponent : Component :=
  mkComponent "idle" (Some 0) 0 "" None false None.

Definition initBrowser : Browser :=
  mkBrowser ∅ 1%nat [] [] [] [] [].

Definition init (callback : bool) : World :=
  mkWorld initComponent initBrowser callback.

(** *** State setters *)

Definition on_ui (f : Component -> Component) (w : World) : World :=
  mkWorld (f (ui w)) (env w) (onUploadComplete w).

Definition on_env (f : Browser -> Browser) (w : World) : World :=
  mkWorld (ui w) (f (env w)) (onUploadComplete w).

Definition setUploadState (v : string) : World -> World :=
  on_ui (fun c => mkComponent v (uploadProgress c) (processProgress c)
    (statusMessage c) (sessionId c) (isDragOver c) (processingInterval c)).

Definition setUploadProgress (v : option Z) : World -> World :=
  on_ui (fun c => mkComponent (uploadState c) v (processProgress c)
    (statusMessage c) (sessionId c) (isDragOver c) (processingInterval c)).

Definition setProcessProgress (v : Z) : World -> World :=
  on_ui (fun c => mkComponent (uploadState c) (uploadProgress c) v
    (statusMessage c) (sessionId c) (isDragOver c) (processingInterval c)).

Definition setStatusMessage (v : string) : World -> World :=
  on_ui (fun c => mkComponent (uploadState c) (uploadProgress c)
    (processProgress c) v (sessionId c) (isDragOver c)
    (processingInterval c)).

Definition setSessionId (v : option string) : World -> World :=
  on_ui (fun c => mkComponent (uploadState c) (uploadProgress c)
    (processProgress c) (statusMessage c) v (isDragOver c)
    (processingInterval c)).

Definition setIsDragOver (v : bool) : World -> World :=
  on_ui (fun c => mkComponent (uploadState c) (uploadProgress c)
    (processProgress c) (statusMessage c) (sessionId c) v
    (processingInterval c)).

Definition setProcessingInterval (v : option nat) : World -> World :=
  on_ui (fun c => mkComponent (uploadState c) (uploadProgress c)
    (processProgress c) (statusMessage c) (sessionId c) (isDragOver c) v).

(** *** Browser effects *)

Definition alert (msg : string) : World -> World :=
  on_env (fun b => mkBrowser (intervals b) (nextTimer b) (uploads b)
    (requests b) (msg :: alerts b) (console b) (completions b)).

Definition console_error (msg : string) : World -> World :=
  on_env (fun b => mkBrowser (intervals b) (nextTimer b) (uploads b)
    (requests b) (alerts b) (msg :: console b) (completions b)).

(** [axios.post('/upload', formData, ...)]: the request leaves. *)
Definition post_upload (f : File.t) : World -> World :=
  on_env (fun b => mkBrowser (intervals b) (nextTimer b) (f :: uploads b)
    (requests b) (alerts b) (console b) (completions b)).

(** The [i]-th upload in flight settles. *)
Definition settle_upload (i : nat) : World -> World :=
  on_env (fun b => mkBrowser (intervals b) (nextTimer b)
    (delete i (uploads b)) (requests b) (alerts b) (console b)
    (completions b)).

(** [axios.get(`/status/${sessionId}`)] issued by the callback of timer
    [id]. *)
Definition get_status (id : nat) (sid : string) : World -> World :=
  on_env (fun b => mkBrowser (intervals b) (nextTimer b) (uploads b)
    ((id, sid) :: requests b) (alerts b) (console b) (completions b)).

(** [setInterval(callback, 2000)] with a callback that closed over
    [sid]; the new handle is stored in the world by the caller. *)
Definition setInterval (sid : string) (w : World) : nat * World :=
  let id := nextTimer (env w) in
  (id, on_env (fun b => mkBrowser (<[id := sid]> (intervals b)) (S id)
         (uploads b) (requests b) (alerts b) (console b) (completions b))
         w).

(** [clearInterval(h)]: a [null] or dead handle is ignored. *)
Definition clearInterval (h : option nat) : World -> World :=
  match h with
  | None => fun w => w
  | Some id =>
      on_env (fun b => mkBrowser (delete id (intervals b)) (nextTimer b)
        (uploads b) (requests b) (alerts b) (console b) (completions b))
  end.

Definition call_onUploadComplete (sid : string) (st : Status.t)
    (w : World) : World :=
  if onUploadComplete w then
    on_env (fun b => mkBrowser (intervals b) (nextTimer b) (uploads b)
      (requests b) (alerts b) (console b) ((sid, st) :: completions b)) w
  else w.

(** *** Handlers *)

Definition validTypes : list string :=
  ["video/mp4"; "video/avi"; "video/quicktime"; "video/x-msvideo"].

Definition maxSize : Z := 500 * 1024 * 1024.

Definition msgInvalidType : string :=
  "Please select a valid video file (MP4, AVI, MOV, MKV)".

Definition msgTooLarge : string := "File size must be less than 500MB".

(** [uploadFile] up to its [await]: the state is set and the request is
    sent. *)
Definition uploadFile (file : File.t) (w : World) : World :=
  post_upload file (setUploadProgress (Some 0) (setUploadState "uploading" w)).

Definition handleFileSelect (file : File.t) (w : World) : World :=
  if negb (Js.includes validTypes (File.type file)) then
    alert msgInvalidType w
  else if File.size file >? maxSize then
    alert msgTooLarge w
  else uploadFile file w.

(** The [onUploadProgress] callback. *)
Definition onUploadProgress (loaded total : Z) (w : World) : World :=
  setUploadProgress (Js.round_percent loaded total) w.

Definition startProcessingMonitor (sid : string) (w : World) : World :=
  let (id, w1) := setInterval sid w in
  setProcessingInterval (Some id) w1.

(** [uploadFile] after the [await], when the request resolved with
    [session_id]. *)
Definition uploadFile_resolved (session_id : string) (w : World) : World :=
  startProcessingMonitor session_id
    (setStatusMessage "Starting analysis..."
      (setUploadState "processing"
        (setSessionId (Some session_id) w))).

(** [uploadFile] after the [await], when the request was rejected. *)
Definition uploadFile_rejected (w : World) : World :=
  setStatusMessage "Upload failed. Please try again."
    (setUploadState "error"
      (console_error "Upload error:" w)).

(** One run of the interval callback installed by
    [startProcessingMonitor sid] under timer [id].  [response] is the
    outcome of the status request: [Some status] when it resolved with
    that body, [None] when it was rejected. *)
Definition monitor (id : nat) (sid : string) (response : option Status.t)
    (w : World) : World :=
  let w := get_status id sid w in
  match response with
  | None => console_error "Status check error:" w
  | Some status =>
      let w := setProcessProgress (Status.progress status) w in
      let w := setStatusMessage (Status.message status) w in
      if String.eqb (Status.status status) "completed" then
        let w := clearInterval (processingInterval (ui w)) w in
        let w := setUploadState "completed" w in
        call_onUploadComplete sid status w
      else if String.eqb (Status.status status) "error" then
        let w := clearInterval (processingInterval (ui w)) w in
        let w := setUploadState "error" w in
        setStatusMessage ("Processing failed: " ++ Status.message status) w
      else w
  end.

Definition handleDragOver : World -> World := setIsDragOver true.

Definition handleDragLeave : World -> World := setIsDragOver false.

Definition handleDrop (files : list File.t) (w : World) : World :=
  let w := setIsDragOver false w in
  match files with
  | file :: _ => handleFileSelect file w
  | [] => w
  end.

Definition handleFileInputChange (files : list File.t) (w : World)
    : World :=
  match files with
  | file :: _ => handleFileSelect file w
  | [] => w
  end.

Definition resetUpload (w : World) : World :=
  let w := setUploadState "idle" w in
  let w := setUploadProgress (Some 0) w in
  let w := setProcessProgress 0 w in
  let w := setStatusMessage "" w in
  let w := setSessionId None w in
  if Js.truthy_handle (processingInterval (ui w)) then
    clearInterval (processingInterval (ui w)) w
  else w.

(** *** The component as a transition system

    An event is something the browser can deliver to the mounted
    component: a DOM event on an element that is currently rendered, the
    settling of a request in flight, or the firing of a live timer.  The
    drop zone and the file input are rendered only while [uploadState] is
    ['idle']; the two reset buttons only while it is ['completed'] or
    ['error'].  A timer firing runs the callback to its end, request and
    response included, before the next event is delivered. *)

Inductive Event : Type :=
| DragOver
| DragLeave
| Drop (files : list File.t)
| FileInputChange (files : list File.t)
| UploadProgress (loaded total : Z)
| UploadResolved (i : nat) (session_id : string)
| UploadRejected (i : nat)
| Tick (id : nat) (response : option Status.t)
| Reset.

Definition shows (s : string) (w : World) : bool :=
  String.eqb (uploadState (ui w)) s.

Definition step (e : Event) (w : World) : option World :=
  match e with
  | DragOver =>
      if shows "idle" w then Some (handleDragOver w) else None
  | DragLeave =>
      if shows "idle" w then Some (handleDragLeave w) else None
  | Drop files =>
      if shows "idle" w then Some (handleDrop files w) else None
  | FileInputChange files =>
      if shows "idle" w then Some (handleFileInputChange files w) else None
  | UploadProgress loaded total =>
      match uploads (env w) with
      | _ :: _ => Some (onUploadProgress loaded total w)
      | [] => None
      end
  | UploadResolved i session_id =>
      match uploads (env w) !! i with
      | Some _ => Some (uploadFile_resolved session_id (settle_upload i w))
      | None => None
      end
  | UploadRejected i =>
      match uploads (env w) !! i with
      | Some _ => Some (uploadFile_rejected (settle_upload i w))
      | None => None
      end
  | Tick id response =>
      match intervals (env w) !! id with
      | Some sid => Some (monitor id sid response w)
      | None => None
      end
  | Reset =>
      if shows "completed" w || shows "error" w
      then Some (resetUpload w) else None
  end.

(** Delivering a sequence of events, oldest first. *)
Fixpoint run (es : list Event) (w : World) : option World :=
  match es with
  | [] => Some w
  | e :: es' =>
      match step e w with
      | Some w' => run es' w'
      | None => None
      end
  end.

Inductive reachable : World -> Prop :=
| reach_init (callback : bool) : reachable (init callback)
| reach_step (w w' : World) (e : Event) :
    reachable w -> step e w = Some w' -> reachable w'.


(** The status requests that the callback of timer [id] has issued. *)
Definition requests_of (id : nat) (w : World) : list (nat * string) :=
  List.filter (fun r => Nat.eqb (fst r) id) (requests (env w)).

(** The part of the world that the component renders. *)
Definition observable (w : World) : string * Z * string * option string :=
  (uploadState (ui w), processProgress (ui w), statusMessage (ui w),
   sessionId (ui w)).


End VideoUpload.

(** ** The timeline page *)

Module Segment.
(** One entry of [timeline_segments] in a [GET /results/<session>]
    response, with the fields the page reads. *)
Record t : Type := mk {
  id : Z;
  screenshot_path : string;
  formatted_time_range : string;
  duration : Q;
  confidence_score : Q;
  summary : string;
  key_topics : list string;
  transcript : string
}.
End Segment.

Module Timeline.

Record Metadata : Type := mkMetadata {
  video_filename : string;
  total_segments : Z
}.

Record TimelineData : Type := mkTimelineData {
  metadata : Metadata;
  timeline_segments : list Segment.t
}.

(** The [useState] cells of the page. *)
Record Page : Type := mkPage {
  timelineData : option TimelineData;
  loading : bool;
  error : option string;
  searchTerm : string;
  selectedTopics : list string;
  filteredSegments : list Segment.t
}.

Definition initPage : Page := mkPage None true None "" [] [].

Definition setTimelineData (v : option TimelineData) (p : Page) : Page :=
  mkPage v (loading p) (error p) (searchTerm p) (selectedTopics p)
    (filteredSegments p).

Definition setLoading (v : bool) (p : Page) : Page :=
  mkPage (timelineData p) v (error p) (searchTerm p) (selectedTopics p)
    (filteredSegments p).

Definition setError (v : option string) (p : Page) : Page :=
  mkPage (timelineData p) (loading p) v (searchTerm p) (selectedTopics p)
    (filteredSegments p).

Definition setSearchTerm (v : string) (p : Page) : Page :=
  mkPage (timelineData p) (loading p) (error p) v (selectedTopics p)
    (filteredSegments p).

Definition setSelectedTopics (f : list string -> list string) (p : Page)
    : Page :=
  mkPage (timelineData p) (loading p) (error p) (searchTerm p)
    (f (selectedTopics p)) (filteredSegments p).

Definition setFilteredSegments (v : list Segment.t) (p : Page) : Page :=
  mkPage (timelineData p) (loading p) (error p) (searchTerm p)
    (selectedTopics p) v.

(** [fetchTimelineData] once its request has settled: [Some data] when it
    resolved, [None] when it was rejected. *)
Definition fetchTimelineData (response : option TimelineData) (p : Page)
    : Page :=
  match response with
  | Some data => setLoading false (setTimelineData (Some data) p)
  | None => setLoading false (setError (Some "Failed to load timeline data") p)
  end.

(** The updater that [toggleTopic] hands to [setSelectedTopics]. *)
Definition toggle (topic : string) (prev : list string) : list string :=
  if Js.includes prev topic
  then List.filter (fun t => negb (String.eqb t topic)) prev
  else prev ++ [topic].

Definition toggleTopic (topic : string) : Page -> Page :=
  setSelectedTopics (toggle topic).

Section CaseFolding.

(** [String.prototype.toLowerCase]; the page relies on nothing but its
    being a function on strings. *)
Variable toLowerCase : string -> string.

(** The callback of the search-term filter. *)
Definition matches_search (term : string) (segment : Segment.t) : bool :=
  Js.str_includes (toLowerCase (Segment.transcript segment))
                  (toLowerCase term)
  || Js.str_includes (toLowerCase (Segment.summary segment))
                     (toLowerCase term)
  || Js.some (fun topic =>
                Js.str_includes (toLowerCase topic) (toLowerCase term))
             (Segment.key_topics segment).

(** The callback of the topic filter. *)
Definition matches_topics (selected : list string) (segment : Segment.t)
    : bool :=
  Js.some (fun topic => Js.includes selected topic)
          (Segment.key_topics segment).

(** The array that [filterSegments] computes from loaded data. *)
Definition filtered_of (data : TimelineData) (term : string)
    (selected : list string) : list Segment.t :=
  let filtered := timeline_segments data in
  let filtered :=
    if Js.truthy_str term
    then List.filter (matches_search term) filtered
    else filtered in
  let filtered :=
    if (0 <? length selected)%nat
    then List.filter (matches_topics selected) filtered
    else filtered in
  filtered.

Definition filterSegments (p : Page) : Page :=
  match timelineData p with
  | None => p
  | Some data =>
      setFilteredSegments
        (filtered_of data (searchTerm p) (selectedTopics p)) p
  end.

End CaseFolding.

(** [getAllTopics]: the topics of all segments in order of first
    appearance, as a [Set] turned into an array yields them. *)
Definition set_add (acc : list string) (topic : string) : list string :=
  if Js.includes acc topic then acc else acc ++ [topic].

Definition getAllTopics (p : Page) : list string :=
  match timelineData p with
  | None => []
  | Some data =>
      fold_left (fun acc segment =>
                   fold_left set_add (Segment.key_topics segment) acc)
                (timeline_segments data) []
  end.

End Timeline.

(** Lower-casing of the ASCII letters, the restriction of
    [String.prototype.toLowerCase] to ASCII text. *)
Fixpoint ascii_toLowerCase (s : string) : string :=
  match s with
  | EmptyString => EmptyString
  | String c s' =>
      let n := nat_of_ascii c in
      String (if ((65 <=? n) && (n <=? 90))%nat
              then ascii_of_nat (n + 32) else c)
             (ascii_toLowerCase s')
  end.

(** A small result and a page that has loaded it, for the examples. *)
Definition demoData : Timeline.TimelineData :=
  Timeline.mkTimelineData (Timeline.mkMetadata "demo.mp4" 2)
    [Segment.mk 0 "s0.png" "00:00:00-00:00:05" 5 100
       "Intro slide" ["Intro"] "welcome everyone";
     Segment.mk 1 "s1.png" "00:00:05-00:00:10" 5 80
       "Roadmap" ["Plans"] "next quarter"].

Definition demoPage (term : string) (topics : list string) : Timeline.Page :=
  Timeline.mkPage (Some demoData) false None term topics [].


(** ** The Screen-Change Segmenter

    The segmenter lives in the Python back end (core/video_analyzer.py),
    which is not among the front-end sources; its contract is taken from
    the design document.  Times are exact rationals. *)

Module Segmenter.

Section WithSimilarity.

(** Modelled from the spec: the raw pixel buffer of a frame, left
    abstract. *)
Variable Image : Type.

(** Modelled from the spec: the bounded similarity score between two
    frames, whose algorithm the design leaves open. *)
Variable similarity : Image -> Image -> Q.

(** Modelled from the spec: a Frame Sample, (timestamp, image). *)
Record FrameSample : Type := mkFrame { timestamp : Q; image : Image }.

(** Modelled from the spec: the segmenter's configuration
    [{similarity_threshold, min_duration}]. *)
Record Config : Type := mkConfig {
  similarity_threshold : Q;
  min_duration : Q
}.

(** Modelled from the spec: a Visual Segment, (start, end, screenshot). *)
Record VisualSegment : Type := mkSegment {
  start : Q;
  end_ : Q;
  screenshot : Image
}.

(** Modelled from the spec: a segment together with the similarity score
    measured across its start boundary, which the merge rule compares. *)
Record Span : Type := mkSpan {
  segment : VisualSegment;
  entry_similarity : Q
}.

Variable cfg : Config.

(** Modelled from the spec: "a change boundary is declared when
    similarity drops below [similarity_threshold]". *)
Definition is_change (a b : Image) : bool :=
  negb (Qle_bool (similarity_threshold cfg) (similarity a b)).

(** Modelled from the spec: the raw segments.  [from] is the start of the
    segment being built, [entry] the score across that start, [cur] the
    last frame read.  A boundary lies at the timestamp of the first frame
    that differs; the screenshot of a segment is the last frame sampled
    before its end boundary; the last segment ends at [duration]. *)
Fixpoint raw_spans (duration from entry : Q) (cur : FrameSample)
    (rest : list FrameSample) : list Span :=
  match rest with
  | [] => [mkSpan (mkSegment from duration (image cur)) entry]
  | f :: rest' =>
      if is_change (image cur) (image f)
      then mkSpan (mkSegment from (timestamp f) (image cur)) entry
           :: raw_spans duration (timestamp f)
                (similarity (image cur) (image f)) f rest'
      else raw_spans duration from entry f rest'
  end.

(** Modelled from the spec: a segment "shorter than [min_duration]". *)
Definition short (s : Span) : bool :=
  negb (Qle_bool (min_duration cfg)
          (end_ (segment s) - start (segment s))).

(** Modelled from the spec: [a] and the segment [b] that follows it
    become one segment, which keeps the start boundary of [a] and the
    end and screenshot of [b]. *)
Definition join (a b : Span) : Span :=
  mkSpan (mkSegment (start (segment a)) (end_ (segment b))
            (screenshot (segment b)))
         (entry_similarity a).

(** Modelled from the spec: "any segment shorter than [min_duration] is
    absorbed into the adjacent segment with which it shares the weaker
    visual discontinuity (tie-break: merge into the following segment)".
    The first short segment that has a neighbour is absorbed; [prev] is
    the segment before the head of [l], and the result contains it.  The
    weaker discontinuity is the boundary with the higher similarity
    score.  [None] when nothing can be absorbed. *)
Fixpoint absorb (prev : option Span) (l : list Span) : option (list Span) :=
  match l with
  | [] => None
  | s :: r =>
      if short s then
        match prev, r with
        | None, [] => None
        | None, t :: r' => Some (join s t :: r')
        | Some q, [] => Some [join q s]
        | Some q, t :: r' =>
            if Qle_bool (entry_similarity s) (entry_similarity t)
            then Some (q :: join s t :: r')
            else Some (join q s :: r)
        end
      else
        match absorb (Some s) r with
        | Some l' =>
            Some (match prev with Some q => q :: l' | None => l' end)
        | None => None
        end
  end.

(** Modelled from the spec: absorption repeated, at most [fuel] times,
    until no segment can be absorbed. *)
Fixpoint merge_short (fuel : nat) (l : list Span) : list Span :=
  match fuel with
  | O => l
  | S fuel' =>
      match absorb None l with
      | Some l' => merge_short fuel' l'
      | None => l
      end
  end.

(** Modelled from the spec: the segmenter, from the frames of the sampler
    and the duration of the video to the list of Visual Segments.  Every
    absorption removes a segment, so as many rounds as there are raw
    segments suffice. *)
Definition segmenter (duration : Q) (frames : list FrameSample)
    : list VisualSegment :=
  match frames with
  | [] => []
  | f :: rest =>
      let raw := raw_spans duration 0 0 f rest in
      map segment (merge_short (length raw) raw)
  end.

(** Modelled from the spec: frames at a fixed stride have increasing
    timestamps. *)
Fixpoint increasing (t : Q) (frames : list FrameSample) : Prop :=
  match frames with
  | [] => True
  | f :: rest => (t < timestamp f)%Q /\ increasing (timestamp f) rest
  end.

(** Modelled from the spec: a sampled video has a first frame, no frame
    before time [0], increasing timestamps, and every frame before its
    end. *)
Definition well_sampled (duration : Q) (frames : list FrameSample) : Prop :=
  match frames with
  | [] => False
  | f :: rest =>
      (0 <= timestamp f)%Q /\ increasing (timestamp f) rest /\
      Forall (fun g => (timestamp g < duration)%Q) frames
  end.

(** A list of segments that tiles the interval from [a] to [b]: the first
    starts at [a], each ends where the next starts, the last ends at [b],
    and none is empty. *)
Inductive chain : Q -> Q -> list Span -> Prop :=
| chain_one (s : Span) (a b : Q) :
    start (segment s) = a -> end_ (segment s) = b -> (a < b)%Q ->
    chain a b [s]
| chain_cons (s : Span) (r : list Span) (a b : Q) :
    start (segment s) = a -> (a < end_ (segment s))%Q ->
    chain (end_ (segment s)) b r ->
    chain a b (s :: r).

End WithSimilarity.

Arguments mkFrame {Image} _ _.
Arguments timestamp {Image} _.
Arguments image {Image} _.
Arguments mkSegment {Image} _ _ _.
Arguments start {Image} _.
Arguments end_ {Image} _.
Arguments screenshot {Image} _.
Arguments mkSpan {Image} _ _.
Arguments segment {Image} _.
Arguments entry_similarity {Image} _.
Arguments chain {Image} _ _ _.
Arguments increasing {Image} _ _.
Arguments well_sampled {Image} _ _.

End Segmenter.

(** The first end-to-end scenario of the design document: a ten-second
    video sampled once a second whose screen changes once, at five
    seconds, segmented with a minimum duration of two seconds.  Images
    are numbered screens; two frames are similar when they show the same
    screen. *)
Definition demoSimilarity (a b : nat) : Q :=
  if Nat.eqb a b then 1%Q else 0%Q.

Definition demoConfig : Segmenter.Config :=
  Segmenter.mkConfig (85 # 100) 2.

Definition demoFrames : list (Segmenter.FrameSample nat) :=
  [Segmenter.mkFrame 0 0%nat; Segmenter.mkFrame 1 0%nat;
   Segmenter.mkFrame 2 0%nat; Segmenter.mkFrame 3 0%nat;
   Segmenter.mkFrame 4 0%nat; Segmenter.mkFrame 5 1%nat;
   Segmenter.mkFrame 6 1%nat; Segmenter.mkFrame 7 1%nat;
   Segmenter.mkFrame 8 1%nat; Segmenter.mkFrame 9 1%nat].

(** ** What the upload component renders *)

Module UploadView.

Import VideoUpload.




(** A session at two of its stages, for the examples: a file has been
    dropped; its upload has resolved with session [s1]. *)
Definition demoUploading : World :=
  handleDrop [File.mk "a.mp4" "video/mp4" 1024] (init true).

Definition demoProcessing : World :=
  uploadFile_resolved "s1" (settle_upload 0 demoUploading).

End UploadView.

(** ** The timeline page as a transition system *)

Module TimelinePage.

Import Timeline.

(** The three boxes the page can show for the summary of a segment. *)
Inductive SummaryBox : Type :=
| DiscussionSummary
| AudioProcessing
| VisualContentOnly.

(** The conditional that picks the box. *)
Definition summaryBox (summary : string) : SummaryBox :=
  if Js.truthy_str summary
     && negb (String.eqb summary "No discussion - Visual only")
     && negb (Js.str_includes summary "[Audio detected")
  then DiscussionSummary
  else if Js.truthy_str summary && Js.str_includes summary "[Audio detected"
  then AudioProcessing
  else VisualContentOnly.

(** The page returns early with a spinner while [loading] and with the
    error block when [error] is set; only past both are the search box,
    the topic menu, the selected topics and the segments rendered. *)
Definition showsTimeline (p : Page) : bool :=
  negb (loading p) && match error p with None => true | Some _ => false end.

(** What the user and the network can do to the mounted page.  The one
    request for the results is sent on mount and settles once;
    [SelectTopic] is a change of the topic menu, whose options are the
    empty placeholder and the topics of [getAllTopics]; [ClickTopic] is a
    click on one of the selected topics; [ClearFilters] is the button
    under "No segments match your current filters". *)
Inductive Event : Type :=
| FetchSettled (response : option TimelineData)
| TypeSearch (value : string)
| SelectTopic (value : string)
| ClickTopic (topic : string)
| ClearFilters.

Section CaseFolding.

Variable toLowerCase : string -> string.

(** The effect on [timelineData], [searchTerm] and [selectedTopics],
    which React runs after a render in which one of them changed. *)
Definition effect (p : Page) : Page :=
  match timelineData p with
  | Some _ => filterSegments toLowerCase p
  | None => p
  end.

Definition step (e : Event) (p : Page) : option Page :=
  match e with
  | FetchSettled response =>
      if loading p then Some (effect (fetchTimelineData response p))
      else None
  | TypeSearch value =>
      if showsTimeline p then
        Some (if String.eqb value (searchTerm p) then p
              else effect (setSearchTerm value p))
      else None
  | SelectTopic value =>
      if showsTimeline p
         && (negb (Js.truthy_str value) || Js.includes (getAllTopics p) value)
      then Some (if Js.truthy_str value then effect (toggleTopic value p)
                 else p)
      else None
  | ClickTopic topic =>
      if showsTimeline p && Js.includes (selectedTopics p) topic
      then Some (effect (toggleTopic topic p))
      else None
  | ClearFilters =>
      if showsTimeline p && (length (filteredSegments p) =? 0)%nat
      then Some (effect (setSelectedTopics (fun _ => [])
                           (setSearchTerm "" p)))
      else None
  end.

Fixpoint run (es : list Event) (p : Page) : option Page :=
  match es with
  | [] => Some p
  | e :: es' =>
      match step e p with
      | Some p' => run es' p'
      | None => None
      end
  end.

Inductive reachable : Page -> Prop :=
| reach_init : reachable initPage
| reach_step (p p' : Page) (e : Event) :
    reachable p -> step e p = Some p' -> reachable p'.

(** What holds of every reachable page. *)
Record PageInv (p : Page) : Prop := mkPageInv {
  page_sync :
    filteredSegments p
    = match timelineData p with
      | Some data =>
          filtered_of toLowerCase data (searchTerm p) (selectedTopics p)
      | None => []
      end;
  page_nodup : NoDup (selectedTopics p);
  page_topics : forall t, In t (selectedTopics p) -> In t (getAllTopics p);
  page_loading :
    loading p = true ->
    timelineData p = None /\ error p = None /\ searchTerm p = "";
  page_loaded : showsTimeline p = true -> timelineData p <> None;
  page_failed : error p <> None -> timelineData p = None /\ loading p = false
}.

End CaseFolding.

End TimelinePage.

(** The demonstration page at a few stages: its results have arrived; the
    topic "Plans" has then been chosen from the menu; or a term that
    matches nothing has been typed; and the page whose request failed. *)
Definition demoLoaded : Timeline.Page :=
  TimelinePage.effect ascii_toLowerCase
    (Timeline.fetchTimelineData (Some demoData) Timeline.initPage).

Definition demoSelected : Timeline.Page :=
  TimelinePage.effect ascii_toLowerCase
    (Timeline.toggleTopic "Plans" demoLoaded).

Definition demoNoMatch : Timeline.Page :=
  TimelinePage.effect ascii_toLowerCase
    (Timeline.setSearchTerm "zebra" demoLoaded).

Definition demoFetchFailed : Timeline.Page :=
  TimelinePage.effect ascii_toLowerCase
    (Timeline.fetchTimelineData None Timeline.initPage).


(** ** The transcript block of a segment *)

Module TimelineView.

(** The three forms of the transcript block. *)
Inductive TranscriptBox : Type :=
| Quotation
| TranscriptUnavailable
| NoAudioDetected.

Section Trimming.

(** [String.prototype.trim]. *)
Variable trim : string -> string.

(** The conditional that picks the form. *)
Definition transcriptBox (transcript : string) : TranscriptBox :=
  if Js.truthy_str transcript
     && Js.truthy_str (trim transcript)
     && negb (Js.str_includes transcript
                "[Audio detected - transcript not available")
  then Quotation
  else if Js.truthy_str transcript
          && Js.str_includes transcript "[Audio detected"
  then TranscriptUnavailable
  else NoAudioDetected.

End Trimming.

End TimelineView.

(** Trimming of the ASCII white space and line ends (tab, line feed,
    vertical tab, form feed, carriage return, space), the restriction of
    [String.prototype.trim] to ASCII text. *)
Definition is_space (c : ascii) : bool :=
  let n := nat_of_ascii c in
  ((9 <=? n) && (n <=? 13) || (n =? 32))%nat.

Fixpoint trimStart (s : string) : string :=
  match s with
  | EmptyString => EmptyString
  | String c s' => if is_space c then trimStart s' else s
  end.

Fixpoint trimEnd (s : string) : string :=
  match s with
  | EmptyString => EmptyString
  | String c s' =>
      match trimEnd s' with
      | EmptyString => if is_space c then EmptyString else String c EmptyString
      | r => String c r
      end
  end.

Definition ascii_trim (s : string) : string := trimEnd (trimStart s).

Fixpoint all_space (s : string) : bool :=
  match s with
  | EmptyString => true
  | String c s' => is_space c && all_space s'
  end.
(** ** The upload component with its polls in flight

    The interval callback is [async]: it sends the status request, and
    what follows its [await] runs when the response arrives, which may be
    after other events and after later firings of the interval.  Here the
    callback is split at the [await]; every other event of the component
    is delivered as [VideoUpload.step] delivers it.  The transition system
    of [VideoUpload] is the part of this one in which every request is
    answered before anything else happens. *)

Module UploadAsync.

Import VideoUpload.

(** The interval callback from its [await] on, for a callback that closed
    over [sid]; [response] is [Some status] when the request resolved with
    that body, [None] when it was rejected. *)
Definition monitor_receive (sid : string) (response : option Status.t)
    (w : World) : World :=
  match response with
  | None => console_error "Status check error:" w
  | Some status =>
      let w := setProcessProgress (Status.progress status) w in
      let w := setStatusMessage (Status.message status) w in
      if String.eqb (Status.status status) "completed" then
        let w := clearInterval (processingInterval (ui w)) w in
        let w := setUploadState "completed" w in
        call_onUploadComplete sid status w
      else if String.eqb (Status.status status) "error" then
        let w := clearInterval (processingInterval (ui w)) w in
        let w := setUploadState "error" w in
        setStatusMessage ("Processing failed: " ++ Status.message status) w
      else w
  end.

(** The component together with the status requests in flight, oldest
    first, each with the timer whose callback sent it and the session id
    that callback closed over. *)
Record State : Type := mkState {
  world : World;
  polls : list (nat * string)
}.

Definition init (callback : bool) : State :=
  mkState (VideoUpload.init callback) [].

Inductive Event : Type :=
(** an event of the component other than the firing of a timer *)
| Deliver (e : VideoUpload.Event)
(** timer [id] fires: its callback runs up to the [await] *)
| Fire (id : nat)
(** the [k]-th request in flight settles: its callback resumes *)
| Settle (k : nat) (response : option Status.t).

Definition step (e : Event) (s : State) : option State :=
  match e with
  | Deliver (Tick _ _) => None
  | Deliver e' =>
      match VideoUpload.step e' (world s) with
      | Some w' => Some (mkState w' (polls s))
      | None => None
      end
  | Fire id =>
      match intervals (env (world s)) !! id with
      | Some sid =>
          Some (mkState (get_status id sid (world s))
                        (polls s ++ [(id, sid)]))
      | None => None
      end
  | Settle k response =>
      match polls s !! k with
      | Some (_, sid) =>
          Some (mkState (monitor_receive sid response (world s))
                        (delete k (polls s)))
      | None => None
      end
  end.

Fixpoint run (es : list Event) (s : State) : option State :=
  match es with
  | [] => Some s
  | e :: es' =>
      match step e s with
      | Some s' => run es' s'
      | None => None
      end
  end.

Inductive reachable : State -> Prop :=
| reach_init (callback : bool) : reachable (init callback)
| reach_step (s s' : State) (e : Event) :
    reachable s -> step e s = Some s' -> reachable s'.

(** Handles are handed out in increasing order: the live timers and the
    timer the ref holds are older than the next handle. *)
Record Fresh (w : World) : Prop := mkFresh {
  fresh_live :
    forall id sid, intervals (env w) !! id = Some sid ->
      (id < nextTimer (env w))%nat;
  fresh_ref :
    forall h, processingInterval (ui w) = Some h ->
      (h < nextTimer (env w))%nat
}.

(** A run in which a status response outlives its session.  The first
    session is polled twice before either answer arrives; the second
    answer reports completion and the user starts over with a second
    file; while that file is uploading the first answer arrives, shows
    the completed block once more, and the user starts over again with a
    third file.  Both uploads then resolve, as sessions [s2] and [s3],
    so that two timers are live and the ref holds the later one.  At
    last timer 2 polls [s2] and is told that it is completed. *)
Definition completedStatus : Status.t := Status.mk "completed" 100 "Done".

Definition raceTrace : list Event :=
  [Deliver (Drop [File.mk "a.mp4" "video/mp4" 1024]);
   Deliver (UploadResolved 0 "s1");
   Fire 1; Fire 1;
   Settle 1 (Some completedStatus);
   Deliver Reset;
   Deliver (Drop [File.mk "b.mp4" "video/mp4" 2048]);
   Settle 0 (Some completedStatus);
   Deliver Reset;
   Deliver (Drop [File.mk "c.mp4" "video/mp4" 4096]);
   Deliver (UploadResolved 1 "s2");
   Deliver (UploadResolved 0 "s3");
   Fire 2;
   Settle 0 (Some completedStatus)].

(** The first session after its timer has fired once: one status request
    is in flight. *)
Definition demoPolling : State :=
  mkState (get_status 1 "s1" UploadView.demoProcessing) [(1%nat, "s1")].

End UploadAsync.

(** ** The timeline page with its effect pending

    [TimelinePage.step] gives the page as it is once the effect that
    follows a state change has run.  React commits the render that the
    state change causes before it runs the effect, so for one render the
    page shows the new search term and selection with the list of the
    previous ones.  Here that render is a state of its own: a view is a
    page together with the fact that its effect has yet to run, and React
    runs a pending effect before it handles anything else. *)

Module TimelineRender.

Import Timeline TimelinePage.

Record View : Type := mkView {
  page : Page;
  effectPending : bool
}.

Definition initView : View := mkView initPage false.

Inductive Event : Type :=
| Handle (e : TimelinePage.Event)
| RunEffect.

(** The state change of an event, without the effect, and whether it
    changed [timelineData], [searchTerm] or [selectedTopics]. *)
Definition update (e : TimelinePage.Event) (p : Page)
    : option (Page * bool) :=
  match e with
  | FetchSettled response =>
      if loading p
      then Some (fetchTimelineData response p,
                 match response with Some _ => true | None => false end)
      else None
  | TypeSearch value =>
      if showsTimeline p then
        Some (if String.eqb value (searchTerm p) then (p, false)
              else (setSearchTerm value p, true))
      else None
  | SelectTopic value =>
      if showsTimeline p
         && (negb (Js.truthy_str value) || Js.includes (getAllTopics p) value)
      then Some (if Js.truthy_str value then (toggleTopic value p, true)
                 else (p, false))
      else None
  | ClickTopic topic =>
      if showsTimeline p && Js.includes (selectedTopics p) topic
      then Some (toggleTopic topic p, true)
      else None
  | ClearFilters =>
      if showsTimeline p && (length (filteredSegments p) =? 0)%nat
      then Some (setSelectedTopics (fun _ => []) (setSearchTerm "" p), true)
      else None
  end.

Section CaseFolding.

Variable toLowerCase : string -> string.

Definition step (e : Event) (v : View) : option View :=
  match e with
  | RunEffect =>
      if effectPending v
      then Some (mkView (effect toLowerCase (page v)) false)
      else None
  | Handle e' =>
      if effectPending v then None
      else match update e' (page v) with
           | Some (p', changed) => Some (mkView p' changed)
           | None => None
           end
  end.

Inductive reachable : View -> Prop :=
| reach_init : reachable initView
| reach_step (v v' : View) (e : Event) :
    reachable v -> step e v = Some v' -> reachable v'.

End CaseFolding.

(** The render committed when the results arrive, before its effect has
    run, and the view once it has; then the same two after the topic
    "Plans" has been chosen. *)
Definition demoArrived : View :=
  mkView (fetchTimelineData (Some demoData) initPage) true.

Definition demoSettled : View :=
  mkView (effect ascii_toLowerCase (page demoArrived)) false.

Definition demoChosen : View :=
  mkView (toggleTopic "Plans" (page demoSettled)) true.

Definition demoFiltered : View :=
  mkView (effect ascii_toLowerCase (page demoChosen)) false.

End TimelineRender.


(** * Properties of the upload component *)

Section UploadProperties.

Import VideoUpload.

Lemma includes_In (l : list string) (x : string) :
  Js.includes l x = true <-> In x l.
Proof.
  unfold Js.includes. rewrite existsb_exists. split.
  - intros (y & Hy & Heq). apply String.eqb_eq in Heq. now subst.
  - intros H. exists x. split; [assumption | apply String.eqb_refl].
Qed.

(** C1: the handler turns away a Matroska file of any size, although its
    own message lists MKV among the valid formats: the file's MIME type,
    [video/x-matroska], is not in [validTypes]. *)
Theorem handleFileSelect_rejects_mkv (name : string) (size : Z) (w : World) :
  handleFileSelect (File.mk name "video/x-matroska" size) w
  = alert msgInvalidType w
  /\ uploads (env (handleFileSelect (File.mk name "video/x-matroska" size) w))
     = uploads (env w)
  /\ ui (handleFileSelect (File.mk name "video/x-matroska" size) w) = ui w.
Proof. repeat split. Qed.

(** The handler starts an upload for exactly the files whose MIME type is
    listed and whose size is within the ceiling. *)
Lemma handleFileSelect_cases (file : File.t) (w : World) :
  (In (File.type file) validTypes /\ File.size file <= maxSize /\
   handleFileSelect file w = uploadFile file w) \/
  (~ In (File.type file) validTypes /\
   handleFileSelect file w = alert msgInvalidType w) \/
  (File.size file > maxSize /\
   handleFileSelect file w = alert msgTooLarge w).
Proof.
  unfold handleFileSelect.
  destruct (Js.includes validTypes (File.type file)) eqn:Hty; cbn [negb].
  - apply includes_In in Hty.
    destruct (File.size file >? maxSize) eqn:Hsz.
    + right; right. split; [lia | reflexivity].
    + left. repeat split; [assumption | lia].
  - right; left. split; [| reflexivity].
    intros Hin. apply includes_In in Hin. congruence.
Qed.

(** C4: a file above 500 * 1024 * 1024 bytes is answered with an alert
    and nothing else happens: no request leaves, no timer starts and the
    component's state, session id included, is as before; a file at or
    under the ceiling whose type is listed is handed to [uploadFile],
    which sends the request. *)
Theorem handleFileSelect_size_ceiling (file : File.t) (w : World) :
  (File.size file > 500 * 1024 * 1024 ->
   (exists msg, handleFileSelect file w = alert msg w) /\
   uploads (env (handleFileSelect file w)) = uploads (env w) /\
   intervals (env (handleFileSelect file w)) = intervals (env w) /\
   ui (handleFileSelect file w) = ui w) /\
  (File.size file <= 500 * 1024 * 1024 ->
   In (File.type file) validTypes ->
   handleFileSelect file w = uploadFile file w /\
   uploads (env (handleFileSelect file w)) = file :: uploads (env w) /\
   uploadState (ui (handleFileSelect file w)) = "uploading").
Proof.
  change (500 * 1024 * 1024) with maxSize.
  destruct (handleFileSelect_cases file w)
    as [(Hty & Hsz & ->) | [(Hty & ->) | (Hsz & ->)]]; split.
  - lia.
  - intros _ _. repeat split.
  - intros _. split; [eexists; reflexivity | repeat split].
  - intros _ Hin. contradiction.
  - intros _. split; [eexists; reflexivity | repeat split].
  - lia.
Qed.

Lemma handleFileSelect_size_ceiling_witness :
  ((exists msg,
      handleFileSelect (File.mk "big.mp4" "video/mp4" 524288001) (init true)
      = alert msg (init true)) /\
   uploads (env (handleFileSelect (File.mk "big.mp4" "video/mp4" 524288001)
                   (init true))) = []) /\
  uploads (env (handleFileSelect (File.mk "ok.mp4" "video/mp4" 524288000)
                  (init true)))
  = [File.mk "ok.mp4" "video/mp4" 524288000].
Proof.
  split.
  - destruct (proj1 (handleFileSelect_size_ceiling
                       (File.mk "big.mp4" "video/mp4" 524288001) (init true)))
      as (Hmsg & Hup & _).
    + cbn. lia.
    + split; [exact Hmsg | exact Hup].
  - destruct (proj2 (handleFileSelect_size_ceiling
                       (File.mk "ok.mp4" "video/mp4" 524288000) (init true)))
      as (_ & Hup & _).
    + cbn. lia.
    + cbn. tauto.
    + exact Hup.
Defined.

(** The two terminal branches and the two continuing branches of the
    interval callback. *)
Lemma monitor_completed (id : nat) (sid : string) (status : Status.t)
    (w : World) :
  Status.status status = "completed" ->
  monitor id sid (Some status) w
  = call_onUploadComplete sid status
      (setUploadState "completed"
        (clearInterval (processingInterval (ui w))
          (setStatusMessage (Status.message status)
            (setProcessProgress (Status.progress status)
              (get_status id sid w))))).
Proof. intros H. unfold monitor. rewrite H. reflexivity. Qed.

Lemma monitor_error (id : nat) (sid : string) (status : Status.t)
    (w : World) :
  Status.status status = "error" ->
  monitor id sid (Some status) w
  = setStatusMessage ("Processing failed: " ++ Status.message status)
      (setUploadState "error"
        (clearInterval (processingInterval (ui w))
          (setStatusMessage (Status.message status)
            (setProcessProgress (Status.progress status)
              (get_status id sid w))))).
Proof. intros H. unfold monitor. rewrite H. reflexivity. Qed.

Lemma monitor_other (id : nat) (sid : string) (status : Status.t)
    (w : World) :
  Status.status status <> "completed" ->
  Status.status status <> "error" ->
  monitor id sid (Some status) w
  = setStatusMessage (Status.message status)
      (setProcessProgress (Status.progress status) (get_status id sid w)).
Proof.
  intros Hc He. unfold monitor.
  apply String.eqb_neq in Hc, He. rewrite Hc, He. reflexivity.
Qed.

Lemma monitor_rejected (id : nat) (sid : string) (w : World) :
  monitor id sid None w
  = console_error "Status check error:" (get_status id sid w).
Proof. reflexivity. Qed.

Lemma ui_clearInterval (h : option nat) (w : World) :
  ui (clearInterval h w) = ui w.
Proof. destruct h; reflexivity. Qed.

Lemma ui_call_onUploadComplete (sid : string) (st : Status.t) (w : World) :
  ui (call_onUploadComplete sid st w) = ui w.
Proof.
  unfold call_onUploadComplete. destruct (onUploadComplete w); reflexivity.
Qed.

Lemma env_call_onUploadComplete (sid : string) (st : Status.t) (w : World) :
  intervals (env (call_onUploadComplete sid st w)) = intervals (env w) /\
  nextTimer (env (call_onUploadComplete sid st w)) = nextTimer (env w) /\
  uploads (env (call_onUploadComplete sid st w)) = uploads (env w) /\
  requests (env (call_onUploadComplete sid st w)) = requests (env w).
Proof.
  unfold call_onUploadComplete. destruct (onUploadComplete w); repeat split.
Qed.

(** C5: when the polled status reports [error], the component ends the
    callback in its error state and shows ['Processing failed: '] followed
    by the message of that status. *)
Theorem monitor_error_surfaces_message (id : nat) (sid : string)
    (status : Status.t) (w : World) :
  Status.status status = "error" ->
  uploadState (ui (monitor id sid (Some status) w)) = "error" /\
  statusMessage (ui (monitor id sid (Some status) w))
  = "Processing failed: " ++ Status.message status.
Proof.
  intros H. rewrite (monitor_error _ _ _ _ H).
  split; reflexivity.
Qed.

Lemma monitor_error_surfaces_message_witness :
  statusMessage
    (ui (monitor 1 "s1" (Some (Status.mk "error" 40 "decode failure"))
           (init true)))
  = "Processing failed: decode failure".
Proof.
  exact (proj2 (monitor_error_surfaces_message 1 "s1"
                  (Status.mk "error" 40 "decode failure") (init true)
                  eq_refl)).
Defined.

(** C10: a status request that fails while timer [id] is live leaves
    upload state, process progress, status message and session id as they
    were and leaves every timer running, so the timer fires again; a later
    poll that reports [completed] or [error] then moves the component to
    that state. *)
Theorem monitor_failed_request_keeps_state (id : nat) (sid : string)
    (w : World) :
  intervals (env w) !! id = Some sid ->
  exists w',
    step (Tick id None) w = Some w' /\
    observable w' = observable w /\
    processingInterval (ui w') = processingInterval (ui w) /\
    intervals (env w') = intervals (env w) /\
    forall status : Status.t,
      Status.status status = "completed" \/ Status.status status = "error" ->
      exists w'',
        step (Tick id (Some status)) w' = Some w'' /\
        uploadState (ui w'') = Status.status status.
Proof.
  intros Hlive. exists (monitor id sid None w).
  cbn [step]. rewrite Hlive.
  split; [reflexivity |].
  split; [reflexivity |].
  split; [reflexivity |].
  split; [reflexivity |].
  intros status Hterm.
  exists (monitor id sid (Some status) (monitor id sid None w)).
  split.
  - change (intervals (env (monitor id sid None w))) with (intervals (env w)).
    rewrite Hlive. reflexivity.
  - destruct Hterm as [H | H]; rewrite H.
    + rewrite (monitor_completed _ _ _ _ H).
      rewrite ui_call_onUploadComplete. reflexivity.
    + rewrite (monitor_error _ _ _ _ H). reflexivity.
Qed.

Lemma monitor_failed_request_keeps_state_witness :
  exists w',
    step (Tick 1 None) (uploadFile_resolved "s1" (init true)) = Some w' /\
    observable w' = observable (uploadFile_resolved "s1" (init true)).
Proof.
  destruct (monitor_failed_request_keeps_state 1 "s1"
              (uploadFile_resolved "s1" (init true)) eq_refl)
    as (w' & Hstep & Hobs & _).
  exists w'. split; [exact Hstep | exact Hobs].
Defined.

(** *** The invariant of the reachable states *)














Lemma resetUpload_env (w : World) :
  ui (resetUpload w)
  = mkComponent "idle" (Some 0) 0 "" None (isDragOver (ui w))
      (processingInterval (ui w)) /\
  nextTimer (env (resetUpload w)) = nextTimer (env w) /\
  uploads (env (resetUpload w)) = uploads (env w) /\
  requests (env (resetUpload w)) = requests (env w) /\
  (intervals (env (resetUpload w)) = intervals (env w) \/
   exists id, intervals (env (resetUpload w)) = delete id (intervals (env w))).
Proof.
  unfold resetUpload. cbn.
  destruct (processingInterval (ui w)) as [id |] eqn:Href; cbn.
  - destruct (Nat.eqb id 0); cbn; rewrite ?Href; repeat split; eauto.
  - rewrite ?Href. repeat split; eauto.
Qed.




Lemma run_reachable (es : list Event) (w w' : World) :
  reachable w -> run es w = Some w' -> reachable w'.
Proof.
  revert w. induction es as [| e es IH]; intros w Hw Hrun; cbn in Hrun.
  - injection Hrun as <-. exact Hw.
  - destruct (step e w) as [w1 |] eqn:Hstep; [| discriminate].
    apply (IH w1); [| exact Hrun].
    exact (reach_step w w1 e Hw Hstep).
Qed.



(** *** The life of a timer *)

(** What one run of the callback does to the browser: it logs its
    request, allocates no timer and revives none. *)
Lemma monitor_env (id : nat) (sid : string) (response : option Status.t)
    (w : World) :
  nextTimer (env (monitor id sid response w)) = nextTimer (env w) /\
  requests (env (monitor id sid response w)) = (id, sid) :: requests (env w) /\
  forall j, intervals (env w) !! j = None ->
            intervals (env (monitor id sid response w)) !! j = None.
Proof.
  destruct response as [status |]; [| repeat split; trivial].
  assert (Hclear : forall h j, intervals (env w) !! j = None ->
            intervals (env (clearInterval h
              (setStatusMessage (Status.message status)
                (setProcessProgress (Status.progress status)
                  (get_status id sid w))))) !! j = None).
  { intros [k |] j Hj; cbn; [| exact Hj].
    apply lookup_delete_None. right. exact Hj. }
  destruct (String.eqb_spec (Status.status status) "completed") as [Hc | Hc];
    [| destruct (String.eqb_spec (Status.status status) "error")
         as [He | He]].
  - rewrite (monitor_completed _ _ _ _ Hc).
    destruct (env_call_onUploadComplete sid status
      (setUploadState "completed"
        (clearInterval (processingInterval (ui w))
          (setStatusMessage (Status.message status)
            (setProcessProgress (Status.progress status)
              (get_status id sid w)))))) as (-> & -> & _ & ->).
    cbn [setUploadState on_ui env].
    split; [| split].
    + destruct (processingInterval (ui w)); reflexivity.
    + destruct (processingInterval (ui w)); reflexivity.
    + intros j Hj. apply Hclear. exact Hj.
  - rewrite (monitor_error _ _ _ _ He).
    cbn [setStatusMessage setUploadState on_ui env].
    split; [| split].
    + destruct (processingInterval (ui w)); reflexivity.
    + destruct (processingInterval (ui w)); reflexivity.
    + intros j Hj. apply (Hclear (processingInterval (ui w)) j Hj).
  - rewrite (monitor_other _ _ _ _ Hc He). repeat split; trivial.
Qed.

(** On a terminal status the callback clears the timer that the ref
    holds at that moment, and only that one; that this is the timer that
    fired is what the invariant adds. *)
Lemma monitor_terminal_clears_ref (id : nat) (sid : string)
    (status : Status.t) (w : World) :
  Status.status status = "completed" \/ Status.status status = "error" ->
  intervals (env (monitor id sid (Some status) w))
  = match processingInterval (ui w) with
    | Some h => delete h (intervals (env w))
    | None => intervals (env w)
    end.
Proof.
  intros [Hc | He].
  - rewrite (monitor_completed _ _ _ _ Hc).
    rewrite (proj1 (env_call_onUploadComplete _ _ _)).
    cbn. destruct (processingInterval (ui w)); reflexivity.
  - rewrite (monitor_error _ _ _ _ He).
    cbn. destruct (processingInterval (ui w)); reflexivity.
Qed.

(** A timer that has been cleared stays cleared, and no request is issued
    in its name, whatever happens next: handles are never reused. *)
Lemma step_cleared (id : nat) (e : Event) (w w' : World) :
  intervals (env w) !! id = None -> (id < nextTimer (env w))%nat ->
  step e w = Some w' ->
  intervals (env w') !! id = None /\ (id < nextTimer (env w'))%nat /\
  requests_of id w' = requests_of id w.
Proof.
  intros Hdead Hold Hstep. destruct e; cbn [step] in Hstep.
  - destruct (shows "idle" w); [| discriminate].
    injection Hstep as <-. repeat split; assumption.
  - destruct (shows "idle" w); [| discriminate].
    injection Hstep as <-. repeat split; assumption.
  - destruct (shows "idle" w); [| discriminate].
    injection Hstep as <-. unfold handleDrop.
    destruct files as [| file files]; [repeat split; assumption |].
    destruct (handleFileSelect_cases file (setIsDragOver false w))
      as [(_ & _ & ->) | [(_ & ->) | (_ & ->)]]; repeat split; assumption.
  - destruct (shows "idle" w); [| discriminate].
    injection Hstep as <-. unfold handleFileInputChange.
    destruct files as [| file files]; [repeat split; assumption |].
    destruct (handleFileSelect_cases file w)
      as [(_ & _ & ->) | [(_ & ->) | (_ & ->)]]; repeat split; assumption.
  - destruct (uploads (env w)); [discriminate |].
    injection Hstep as <-. repeat split; assumption.
  - destruct (uploads (env w) !! i); [| discriminate].
    injection Hstep as <-. cbn. repeat split.
    + rewrite lookup_insert_ne by lia. exact Hdead.
    + lia.
  - destruct (uploads (env w) !! i); [| discriminate].
    injection Hstep as <-. repeat split; assumption.
  - destruct (intervals (env w) !! id0) as [sid |] eqn:Hlive; [| discriminate].
    injection Hstep as <-.
    destruct (monitor_env id0 sid response w) as (Hn & Hr & Hi).
    repeat split.
    + apply Hi. exact Hdead.
    + rewrite Hn. exact Hold.
    + unfold requests_of. rewrite Hr. cbn [List.filter fst].
      assert (Hne : id0 <> id) by congruence.
      apply Nat.eqb_neq in Hne. rewrite Hne. reflexivity.
  - destruct (shows "completed" w || shows "error" w); [| discriminate].
    injection Hstep as <-.
    destruct (resetUpload_env w) as (_ & Hn & _ & Hr & Hint).
    repeat split.
    + destruct Hint as [-> | (k & ->)]; [exact Hdead |].
      apply lookup_delete_None. right. exact Hdead.
    + rewrite Hn. exact Hold.
    + unfold requests_of. rewrite Hr. reflexivity.
Qed.

(** A whole session: a file is dropped, uploaded and polled three times;
    the second poll fails, the third reports completion. *)
Example session_run :
  option_map (fun w => (observable w, intervals (env w), requests (env w),
                        completions (env w)))
    (run [Drop [File.mk "talk.mp4" "video/mp4" 2048];
          UploadProgress 1024 2048;
          UploadResolved 0 "s7";
          Tick 1 (Some (Status.mk "transcribing" 40 "Transcribing audio"));
          Tick 1 None;
          Tick 1 (Some (Status.mk "completed" 100 "Analysis complete"))]
         (init true))
  = Some (("completed", 100, "Analysis complete", Some "s7"), ∅,
          [(1%nat, "s7"); (1%nat, "s7"); (1%nat, "s7")],
          [("s7", Status.mk "completed" 100 "Analysis complete")]).
Proof. reflexivity. Qed.

End UploadProperties.

(** * Properties of the timeline page *)

Section TimelineProperties.

Import Timeline.

Lemma filter_sublist {A : Type} (f : A -> bool) (l : list A) :
  sublist (List.filter f l) l.
Proof.
  induction l as [| a l IH]; cbn.
  - constructor.
  - destruct (f a); [apply sublist_skip | apply sublist_cons]; exact IH.
Qed.

(** C8: on loaded data the filter leaves in [filteredSegments] a
    subsequence of [timeline_segments] (the segments that pass, in their
    original order, none repeated and none invented), and with an empty
    search term and no topic selected it leaves the whole list. *)
Theorem filterSegments_subsequence (toLowerCase : string -> string)
    (p : Page) (data : TimelineData) :
  timelineData p = Some data ->
  sublist (filteredSegments (filterSegments toLowerCase p))
          (timeline_segments data) /\
  (searchTerm p = "" -> selectedTopics p = [] ->
   filteredSegments (filterSegments toLowerCase p) = timeline_segments data).
Proof.
  intros Hdata. unfold filterSegments. rewrite Hdata. cbn.
  unfold filtered_of. split.
  - destruct (Js.truthy_str (searchTerm p)),
             (0 <? length (selectedTopics p))%nat.
    + etransitivity; apply filter_sublist.
    + apply filter_sublist.
    + apply filter_sublist.
    + reflexivity.
  - intros -> ->. reflexivity.
Qed.

Lemma filterSegments_subsequence_witness :
  sublist (filteredSegments
             (filterSegments ascii_toLowerCase (demoPage "ROAD" ["Plans"])))
          (timeline_segments demoData) /\
  filteredSegments (filterSegments ascii_toLowerCase (demoPage "" []))
  = timeline_segments demoData.
Proof.
  split.
  - exact (proj1 (filterSegments_subsequence ascii_toLowerCase
                    (demoPage "ROAD" ["Plans"]) demoData eq_refl)).
  - exact (proj2 (filterSegments_subsequence ascii_toLowerCase
                    (demoPage "" []) demoData eq_refl) eq_refl eq_refl).
Defined.

(** The filter drops what does not match: the term ["ROAD"] keeps only
    the second segment, and so does the topic ["Plans"]. *)
Example filterSegments_search :
  map Segment.id
    (filteredSegments (filterSegments ascii_toLowerCase (demoPage "ROAD" [])))
  = [1%Z] /\
  map Segment.id
    (filteredSegments
       (filterSegments ascii_toLowerCase (demoPage "" ["Plans"; "Other"])))
  = [1%Z].
Proof. split; reflexivity. Qed.

Lemma filter_absent (t : string) (s : list string) :
  ~ In t s -> List.filter (fun u => negb (String.eqb u t)) s = s.
Proof.
  induction s as [| a s IH]; cbn; intros Hnin; [reflexivity |].
  destruct (String.eqb_spec a t) as [-> | Hne]; cbn.
  - exfalso. apply Hnin. now left.
  - f_equal. apply IH. tauto.
Qed.

Lemma filter_removes (t : string) (s : list string) :
  ~ In t (List.filter (fun u => negb (String.eqb u t)) s).
Proof.
  intros Hin. apply filter_In in Hin. destruct Hin as (_ & Hneq).
  rewrite String.eqb_refl in Hneq. discriminate.
Qed.

Lemma filter_append_perm (t : string) (s : list string) :
  NoDup s -> In t s ->
  (List.filter (fun u => negb (String.eqb u t)) s ++ [t])%list ≡ₚ s.
Proof.
  induction s as [| a s IH]; intros Hnd Hin; [destruct Hin |].
  apply NoDup_cons in Hnd. destruct Hnd as (Ha & Hnd). cbn.
  destruct (String.eqb_spec a t) as [-> | Hne]; cbn.
  - rewrite filter_absent by (rewrite <- list_elem_of_In; exact Ha).
    symmetry. apply Permutation_cons_append.
  - constructor. apply IH; [exact Hnd |].
    destruct Hin as [Heq | Hin]; [contradiction | exact Hin].
Qed.

Lemma toggle_absent (t : string) (s : list string) :
  ~ In t s -> toggle t s = (s ++ [t])%list.
Proof.
  intros Hnin. unfold toggle.
  destruct (Js.includes s t) eqn:E; [| reflexivity].
  apply includes_In in E. contradiction.
Qed.

Lemma toggle_present (t : string) (s : list string) :
  In t s -> toggle t s = List.filter (fun u => negb (String.eqb u t)) s.
Proof.
  intros Hin. unfold toggle. apply includes_In in Hin. now rewrite Hin.
Qed.

(** C9, as the code has it: on a duplicate-free selection, one
    [toggleTopic] appends the topic when it is absent and removes it when
    it is present; two in succession give back the same topics, in the
    same order when the topic was absent, and with the topic moved to the
    end when it was present. *)
Theorem toggleTopic_twice (t : string) (p : Page) :
  NoDup (selectedTopics p) ->
  (~ In t (selectedTopics p) ->
   selectedTopics (toggleTopic t p) = (selectedTopics p ++ [t])%list /\
   selectedTopics (toggleTopic t (toggleTopic t p)) = selectedTopics p) /\
  (In t (selectedTopics p) ->
   selectedTopics (toggleTopic t p)
   = List.filter (fun u => negb (String.eqb u t)) (selectedTopics p) /\
   ~ In t (selectedTopics (toggleTopic t p)) /\
   selectedTopics (toggleTopic t (toggleTopic t p))
   = (List.filter (fun u => negb (String.eqb u t)) (selectedTopics p)
      ++ [t])%list) /\
  selectedTopics (toggleTopic t (toggleTopic t p)) ≡ₚ selectedTopics p.
Proof.
  intros Hnd. cbn. set (s := selectedTopics p) in *.
  assert (Habs : ~ In t s -> toggle t (toggle t s) = s).
  { intros Hnin. rewrite (toggle_absent t s Hnin).
    rewrite toggle_present by (apply in_or_app; right; now left).
    rewrite List.filter_app, (filter_absent t s Hnin). cbn.
    rewrite String.eqb_refl. cbn. apply app_nil_r. }
  assert (Hpres : In t s -> toggle t (toggle t s)
            = (List.filter (fun u => negb (String.eqb u t)) s ++ [t])%list).
  { intros Hin. rewrite (toggle_present t s Hin).
    apply toggle_absent, filter_removes. }
  split; [| split].
  - intros Hnin. split; [apply toggle_absent; exact Hnin | exact (Habs Hnin)].
  - intros Hin. split; [exact (toggle_present t s Hin) |].
    split; [| exact (Hpres Hin)].
    rewrite (toggle_present t s Hin). apply filter_removes.
  - destruct (in_dec String.string_dec t s) as [Hin | Hnin].
    + rewrite (Hpres Hin). apply filter_append_perm; assumption.
    + rewrite (Habs Hnin). reflexivity.
Qed.

Lemma toggleTopic_twice_witness :
  selectedTopics
    (toggleTopic "API"
       (toggleTopic "API" (mkPage None true None "" ["UI"; "API"; "DB"] [])))
  ≡ₚ ["UI"; "API"; "DB"].
Proof.
  refine (proj2 (proj2 (toggleTopic_twice "API"
            (mkPage None true None "" ["UI"; "API"; "DB"] []) _))).
  cbn. repeat constructor; rewrite list_elem_of_In; cbn; intuition congruence.
Defined.

(** C9, as stated, fails: toggling ["UI"] twice in the duplicate-free
    selection [["UI"; "API"]] yields [["API"; "UI"]]. *)
Lemma toggleTopic_twice_reorders :
  NoDup ["UI"; "API"] /\
  selectedTopics
    (toggleTopic "UI"
       (toggleTopic "UI" (mkPage None true None "" ["UI"; "API"] [])))
  = ["API"; "UI"] /\
  selectedTopics
    (toggleTopic "UI"
       (toggleTopic "UI" (mkPage None true None "" ["UI"; "API"] [])))
  <> selectedTopics (mkPage None true None "" ["UI"; "API"] []).
Proof.
  split; [| split].
  - repeat constructor; rewrite list_elem_of_In; cbn; intuition congruence.
  - reflexivity.
  - cbn. discriminate.
Qed.

End TimelineProperties.

(** * Properties of the segmenter *)

Section SegmenterProperties.

Import Segmenter.

Variable Image : Type.
Variable similarity : Image -> Image -> Q.
Variable cfg : Config.

Local Abbreviation raw_spans := (Segmenter.raw_spans Image similarity cfg).
Local Abbreviation absorb := (Segmenter.absorb Image cfg).
Local Abbreviation merge_short := (Segmenter.merge_short Image cfg).
Local Abbreviation short := (Segmenter.short Image cfg).
Local Abbreviation join := (Segmenter.join Image).

Lemma short_false (s : Span Image) :
  short s = false ->
  (min_duration cfg <= end_ (segment s) - start (segment s))%Q.
Proof.
  unfold Segmenter.short. intros H. apply negb_false_iff in H.
  apply Qle_bool_iff. exact H.
Qed.

(** The raw segments tile the video. *)
Lemma raw_spans_chain (duration : Q) (rest : list (FrameSample Image)) :
  forall (from entry : Q) (cur : FrameSample Image),
    (from <= timestamp cur)%Q -> (from < duration)%Q ->
    increasing (timestamp cur) rest ->
    Forall (fun g => (timestamp g < duration)%Q) rest ->
    chain from duration (raw_spans duration from entry cur rest).
Proof.
  induction rest as [| f rest IH]; intros from entry cur Hle Hlt Hinc Hall;
    cbn [Segmenter.raw_spans].
  - apply chain_one; [reflexivity | reflexivity | exact Hlt].
  - destruct Hinc as (Hcf & Hinc). apply Forall_cons in Hall.
    destruct Hall as (Hf & Hall).
    destruct (is_change Image similarity cfg (image cur) (image f)).
    + apply chain_cons; cbn.
      * reflexivity.
      * lra.
      * apply IH; [lra | exact Hf | exact Hinc | exact Hall].
    + apply IH; [lra | exact Hlt | exact Hinc | exact Hall].
Qed.

(** Joining two neighbours keeps the tiling. *)
Lemma join_chain (s t : Span Image) (r : list (Span Image)) (a b : Q) :
  chain a b (s :: t :: r) -> chain a b (join s t :: r).
Proof.
  intros H. inversion H as [| s0 r0 a0 b0 Hs Hlt Hr]; subst.
  inversion Hr as [t0 a1 b1 Ht Hb Hlt' | t0 r1 a1 b1 Ht Hlt' Hr']; subst.
  - apply chain_one; cbn; [reflexivity | reflexivity | lra].
  - apply chain_cons; cbn; [reflexivity | lra | exact Hr'].
Qed.

Lemma absorb_chain_prev (l : list (Span Image)) :
  forall (q : Span Image) (l' : list (Span Image)) (a b : Q),
    chain a b (q :: l) -> absorb (Some q) l = Some l' -> chain a b l'.
Proof.
  induction l as [| s r IH]; intros q l' a b Hch Habs;
    cbn [Segmenter.absorb] in Habs; [discriminate |].
  destruct (short s).
  - destruct r as [| t r'].
    + injection Habs as <-. apply join_chain. exact Hch.
    + destruct (Qle_bool (entry_similarity s) (entry_similarity t));
        injection Habs as <-.
      * inversion Hch as [| q0 r0 a0 b0 Hq Hlt Hr]; subst.
        apply chain_cons; [reflexivity | exact Hlt |].
        apply join_chain. exact Hr.
      * apply join_chain. exact Hch.
  - destruct (absorb (Some s) r) as [l'' |] eqn:E; [| discriminate].
    injection Habs as <-.
    inversion Hch as [| q0 r0 a0 b0 Hq Hlt Hr]; subst.
    apply chain_cons; [reflexivity | exact Hlt |].
    exact (IH s l'' _ b Hr E).
Qed.

Lemma absorb_chain (l l' : list (Span Image)) (a b : Q) :
  chain a b l -> absorb None l = Some l' -> chain a b l'.
Proof.
  intros Hch Habs. destruct l as [| s r]; cbn [Segmenter.absorb] in Habs;
    [discriminate |].
  destruct (short s).
  - destruct r as [| t r']; [discriminate |].
    injection Habs as <-. apply join_chain. exact Hch.
  - destruct (absorb (Some s) r) as [l'' |] eqn:E; [| discriminate].
    injection Habs as <-. exact (absorb_chain_prev r s l'' a b Hch E).
Qed.

(** Every absorption removes one segment. *)
Lemma absorb_length_prev (l : list (Span Image)) :
  forall (q : Span Image) (l' : list (Span Image)),
    absorb (Some q) l = Some l' -> length l' = length l.
Proof.
  induction l as [| s r IH]; intros q l' Habs;
    cbn [Segmenter.absorb] in Habs; [discriminate |].
  destruct (short s).
  - destruct r as [| t r'].
    + injection Habs as <-. reflexivity.
    + destruct (Qle_bool (entry_similarity s) (entry_similarity t));
        injection Habs as <-; reflexivity.
  - destruct (absorb (Some s) r) as [l'' |] eqn:E; [| discriminate].
    injection Habs as <-. cbn. f_equal. exact (IH s l'' E).
Qed.

Lemma absorb_length (l l' : list (Span Image)) :
  absorb None l = Some l' -> S (length l') = length l.
Proof.
  intros Habs. destruct l as [| s r]; cbn [Segmenter.absorb] in Habs;
    [discriminate |].
  destruct (short s).
  - destruct r as [| t r']; [discriminate |].
    injection Habs as <-. reflexivity.
  - destruct (absorb (Some s) r) as [l'' |] eqn:E; [| discriminate].
    injection Habs as <-. cbn. f_equal. exact (absorb_length_prev r s l'' E).
Qed.

(** When nothing can be absorbed, no segment that has a neighbour is
    short. *)
Lemma absorb_prev_none (l : list (Span Image)) :
  forall q : Span Image,
    absorb (Some q) l = None -> Forall (fun s => short s = false) l.
Proof.
  induction l as [| s r IH]; intros q Habs; [constructor |].
  cbn [Segmenter.absorb] in Habs. destruct (short s) eqn:Hs.
  - destruct r as [| t r']; [discriminate |].
    destruct (Qle_bool (entry_similarity s) (entry_similarity t));
      discriminate.
  - destruct (absorb (Some s) r) as [l'' |] eqn:E; [discriminate |].
    constructor; [exact Hs | exact (IH s E)].
Qed.

Lemma absorb_none (l : list (Span Image)) :
  absorb None l = None ->
  (length l <= 1)%nat \/ Forall (fun s => short s = false) l.
Proof.
  intros Habs. destruct l as [| s r]; [left; cbn; lia |].
  cbn [Segmenter.absorb] in Habs. destruct (short s) eqn:Hs.
  - destruct r as [| t r']; [left; cbn; lia | discriminate].
  - destruct (absorb (Some s) r) as [l'' |] eqn:E; [discriminate |].
    right. constructor; [exact Hs | exact (absorb_prev_none r s E)].
Qed.

Lemma absorb_short_list (l : list (Span Image)) :
  (length l <= 1)%nat -> absorb None l = None.
Proof.
  destruct l as [| s [| t r]]; cbn; intros Hlen; [reflexivity | | lia].
  destruct (short s); reflexivity.
Qed.

(** With as much fuel as there are segments the merge runs to its end. *)
Lemma merge_short_stable (fuel : nat) :
  forall l : list (Span Image),
    (length l <= S fuel)%nat -> absorb None (merge_short fuel l) = None.
Proof.
  induction fuel as [| fuel IH]; intros l Hlen; cbn [Segmenter.merge_short].
  - apply absorb_short_list. exact Hlen.
  - destruct (absorb None l) as [l' |] eqn:E; [| exact E].
    apply IH. apply absorb_length in E. lia.
Qed.

Lemma merge_short_chain (fuel : nat) :
  forall (l : list (Span Image)) (a b : Q),
    chain a b l -> chain a b (merge_short fuel l).
Proof.
  induction fuel as [| fuel IH]; intros l a b Hch; cbn [Segmenter.merge_short];
    [exact Hch |].
  destruct (absorb None l) as [l' |] eqn:E; [| exact Hch].
  apply IH. exact (absorb_chain l l' a b Hch E).
Qed.

(** What a tiling gives for the segments in it. *)
Lemma chain_head (l : list (Span Image)) (a b : Q) :
  chain a b l -> exists s, head l = Some s /\ start (segment s) = a.
Proof.
  intros H. inversion H; subst; eexists; split; reflexivity.
Qed.

Lemma chain_last (l : list (Span Image)) (a b : Q) :
  chain a b l -> exists s, last l = Some s /\ end_ (segment s) = b.
Proof.
  induction 1 as [s a b Hs He Hlt | s r a b Hs Hlt Hr IH].
  - exists s. split; [reflexivity | exact He].
  - destruct IH as (t & Hlast & Ht). exists t. split; [| exact Ht].
    destruct r as [| u r']; [inversion Hr | exact Hlast].
Qed.

Lemma chain_within (l : list (Span Image)) (a b : Q) :
  chain a b l ->
  forall s, In s l ->
    (a <= start (segment s))%Q /\
    (start (segment s) < end_ (segment s))%Q /\
    (end_ (segment s) <= b)%Q.
Proof.
  induction 1 as [s a b Hs He Hlt | s r a b Hs Hlt Hr IH]; intros u Hin.
  - destruct Hin as [<- | []]. subst. repeat split; lra.
  - destruct Hin as [<- | Hin].
    + subst. repeat split; try lra.
      destruct (chain_head r _ b Hr) as (t & Ht & Hst).
      destruct r as [| t' r']; [discriminate |]. injection Ht as ->.
      destruct (IH t (or_introl eq_refl)) as (H1 & H2 & H3). lra.
    + destruct (IH u Hin) as (H1 & H2 & H3). repeat split; lra.
Qed.

Lemma chain_contiguous (l : list (Span Image)) (a b : Q) :
  chain a b l ->
  forall (i : nat) (s t : Span Image),
    l !! i = Some s -> l !! S i = Some t ->
    end_ (segment s) = start (segment t).
Proof.
  induction 1 as [s a b Hs He Hlt | s r a b Hs Hlt Hr IH]; intros i u v Hu Hv.
  - destruct i; discriminate.
  - destruct i as [| i]; cbn in Hu, Hv.
    + injection Hu as <-.
      destruct (chain_head r _ b Hr) as (t & Ht & Hst).
      destruct r as [| t' r']; [discriminate |].
      injection Ht as ->. injection Hv as <-. symmetry. exact Hst.
    + exact (IH i u v Hu Hv).
Qed.

Lemma chain_ordered (l : list (Span Image)) (a b : Q) :
  chain a b l ->
  forall (i j : nat) (s t : Span Image),
    (i < j)%nat -> l !! i = Some s -> l !! j = Some t ->
    (end_ (segment s) <= start (segment t))%Q.
Proof.
  induction 1 as [s a b Hs He Hlt | s r a b Hs Hlt Hr IH];
    intros i j u v Hij Hu Hv.
  - destruct i, j; try discriminate; lia.
  - destruct j as [| j]; [lia |]. cbn in Hv.
    destruct i as [| i]; cbn in Hu.
    + injection Hu as <-.
      apply (chain_within r _ b Hr v).
      apply list_elem_of_In. apply list_elem_of_lookup. exists j. exact Hv.
    + apply (IH i j u v); [lia | exact Hu | exact Hv].
Qed.

Lemma stable_long (l : list (Span Image)) :
  absorb None l = None ->
  forall (i : nat) (s : Span Image),
    l !! i = Some s -> (S i < length l)%nat ->
    (min_duration cfg <= end_ (segment s) - start (segment s))%Q.
Proof.
  intros Habs i s Hi Hlen. destruct (absorb_none l Habs) as [Hle | Hall].
  - lia.
  - apply short_false. rewrite Forall_lookup in Hall. exact (Hall i s Hi).
Qed.

Lemma map_lookup {A B : Type} (f : A -> B) (l : list A) (i : nat) (y : B) :
  map f l !! i = Some y -> exists x, l !! i = Some x /\ y = f x.
Proof.
  revert i. induction l as [| a l IH]; intros i H; [destruct i; discriminate |].
  destruct i as [| i]; cbn in H.
  - injection H as <-. exists a. split; reflexivity.
  - exact (IH i H).
Qed.

Lemma map_last {A B : Type} (f : A -> B) (l : list A) (x : A) :
  last l = Some x -> last (map f l) = Some (f x).
Proof.
  induction l as [| a [| b l] IH]; intros H; [discriminate | |].
  - injection H as <-. reflexivity.
  - exact (IH H).
Qed.

(** C6: for every sampled video the segments that the segmenter returns
    start at [0], end at the video's duration, each end where the next
    starts, are not empty and do not overlap, and every segment but the
    last is at least [min_duration] long. *)
Theorem segmenter_tiles_video (duration : Q)
    (frames : list (FrameSample Image)) :
  well_sampled duration frames ->
  (exists s, head (segmenter Image similarity cfg duration frames) = Some s /\
             start s = 0%Q) /\
  (exists s, last (segmenter Image similarity cfg duration frames) = Some s /\
             end_ s = duration) /\
  (forall (i : nat) (s t : VisualSegment Image),
     segmenter Image similarity cfg duration frames !! i = Some s ->
     segmenter Image similarity cfg duration frames !! S i = Some t ->
     end_ s = start t) /\
  (forall (i : nat) (s : VisualSegment Image),
     segmenter Image similarity cfg duration frames !! i = Some s ->
     (0 <= start s)%Q /\ (start s < end_ s)%Q /\ (end_ s <= duration)%Q) /\
  (forall (i j : nat) (s t : VisualSegment Image),
     (i < j)%nat ->
     segmenter Image similarity cfg duration frames !! i = Some s ->
     segmenter Image similarity cfg duration frames !! j = Some t ->
     (end_ s <= start t)%Q) /\
  (forall (i : nat) (s : VisualSegment Image),
     segmenter Image similarity cfg duration frames !! i = Some s ->
     (S i < length (segmenter Image similarity cfg duration frames))%nat ->
     (min_duration cfg <= end_ s - start s)%Q).
Proof.
  intros Hws. destruct frames as [| f rest]; [destruct Hws |].
  destruct Hws as (H0 & Hinc & Hall).
  apply Forall_cons in Hall. destruct Hall as (Hf & Hall).
  unfold segmenter.
  set (raw := raw_spans duration 0 0 f rest).
  assert (Hraw : chain 0 duration raw)
    by (apply raw_spans_chain; [exact H0 | lra | exact Hinc | exact Hall]).
  set (l := merge_short (length raw) raw).
  assert (Hch : chain 0 duration l) by (apply merge_short_chain; exact Hraw).
  assert (Hst : absorb None l = None) by (apply merge_short_stable; lia).
  clearbody l. clear Hraw raw.
  split; [| split; [| split; [| split; [| split]]]].
  - destruct (chain_head l _ _ Hch) as (s & Hs & Hs0).
    exists (segment s). split; [| exact Hs0].
    destruct l; [discriminate |]. injection Hs as ->. reflexivity.
  - destruct (chain_last l _ _ Hch) as (s & Hs & Hsd).
    exists (segment s). split; [| exact Hsd].
    apply map_last. exact Hs.
  - intros i s t Hs Ht.
    apply map_lookup in Hs, Ht.
    destruct Hs as (s' & Hs & ->), Ht as (t' & Ht & ->).
    exact (chain_contiguous l _ _ Hch i s' t' Hs Ht).
  - intros i s Hs.
    apply map_lookup in Hs. destruct Hs as (s' & Hs & ->).
    apply (chain_within l _ _ Hch s').
    apply list_elem_of_In. apply list_elem_of_lookup. exists i. exact Hs.
  - intros i j s t Hij Hs Ht.
    apply map_lookup in Hs, Ht.
    destruct Hs as (s' & Hs & ->), Ht as (t' & Ht & ->).
    exact (chain_ordered l _ _ Hch i j s' t' Hij Hs Ht).
  - intros i s Hs Hlen.
    apply map_lookup in Hs. destruct Hs as (s' & Hs & ->).
    rewrite length_map in Hlen.
    exact (stable_long l Hst i s' Hs Hlen).
Qed.

(** A video in which no two consecutive frames differ yields one segment
    spanning the whole duration. *)
Lemma raw_spans_constant (duration : Q) (rest : list (FrameSample Image)) :
  forall (from entry : Q) (cur : FrameSample Image),
    (forall a b, is_change Image similarity cfg a b = false) ->
    exists img,
      raw_spans duration from entry cur rest
      = [mkSpan (mkSegment from duration img) entry].
Proof.
  induction rest as [| f rest IH]; intros from entry cur Hsame;
    cbn [Segmenter.raw_spans].
  - eexists. reflexivity.
  - rewrite Hsame. apply IH. exact Hsame.
Qed.

Lemma segmenter_constant (duration : Q) (f : FrameSample Image)
    (rest : list (FrameSample Image)) :
  (forall a b, is_change Image similarity cfg a b = false) ->
  exists img,
    segmenter Image similarity cfg duration (f :: rest)
    = [mkSegment 0 duration img].
Proof.
  intros Hsame.
  destruct (raw_spans_constant duration rest 0 0 f Hsame) as (img & Hraw).
  exists img. unfold segmenter. rewrite Hraw. cbn.
  destruct (short _); reflexivity.
Qed.

End SegmenterProperties.

Lemma segmenter_tiles_video_witness :
  Segmenter.well_sampled 10 demoFrames /\
  exists s,
    last (Segmenter.segmenter nat demoSimilarity demoConfig 10 demoFrames)
    = Some s /\ Segmenter.end_ s = 10%Q.
Proof.
  assert (Hws : Segmenter.well_sampled 10 demoFrames).
  { cbn. split; [lra |]. split.
    - repeat split; lra.
    - repeat constructor; cbn; lra. }
  split; [exact Hws |].
  exact (proj1 (proj2 (segmenter_tiles_video nat demoSimilarity demoConfig
                         10 demoFrames Hws))).
Defined.

(** The scenario's outcome: the segments [0, 5) and [5, 10), each with
    the last frame sampled before its end. *)
Example segmenter_scenario_A :
  Segmenter.segmenter nat demoSimilarity demoConfig 10 demoFrames
  = [Segmenter.mkSegment 0 5 0%nat; Segmenter.mkSegment 5 10 1%nat].
Proof. reflexivity. Qed.

(** * Further properties of the upload component *)

Section UploadRunning.

Import VideoUpload UploadView.

Lemma run_init_reachable (es : list Event) (callback : bool) (w : World) :
  run es (init callback) = Some w -> reachable w.
Proof. apply run_reachable. apply reach_init. Qed.

Lemma demoUploading_reachable : reachable demoUploading.
Proof.
  apply (run_init_reachable [Drop [File.mk "a.mp4" "video/mp4" 1024]] true).
  vm_compute. reflexivity.
Qed.

Lemma demoProcessing_reachable : reachable demoProcessing.
Proof.
  apply (reach_step demoUploading demoProcessing (UploadResolved 0 "s1")).
  - exact demoUploading_reachable.
  - vm_compute. reflexivity.
Qed.



(** X7: for a progress event with [0 <= loaded <= total] and a total that
    is positive and below [2 ^ 45] bytes, the percentage the upload block
    shows is an integer between 0 and 100; it is 100 exactly when [loaded]
    is within half a percent of [total]; and it does not decrease when
    [loaded] grows. *)
Theorem onUploadProgress_percent (loaded total : Z) (w : World) :
  0 <= loaded <= total -> 0 < total < 2 ^ 45 ->
  exists p,
    uploadProgress (ui (onUploadProgress loaded total w)) = Some p /\
    0 <= p <= 100 /\
    (p = 100 <-> 199 * total <= 200 * loaded) /\
    (forall loaded' p',
       loaded <= loaded' ->
       uploadProgress (ui (onUploadProgress loaded' total w)) = Some p' ->
       p <= p').
Proof.
  intros Hl (Ht & _). cbn. unfold Js.round_percent.
  assert (Hz : (total =? 0) = false) by (apply Z.eqb_neq; lia).
  rewrite Hz. eexists. split; [reflexivity |].
  assert (Hlo : 0 <= (2 * (loaded * 100) + total) / (2 * total))
    by (apply Z.div_pos; lia).
  assert (Hhi : (2 * (loaded * 100) + total) / (2 * total) < 101)
    by (apply Z.div_lt_upper_bound; lia).
  split; [lia |]. split; [split |].
  - intros E.
    destruct (Z_lt_le_dec (200 * loaded) (199 * total)) as [Hlt | Hge];
      [| exact Hge].
    assert ((2 * (loaded * 100) + total) / (2 * total) < 100)
      by (apply Z.div_lt_upper_bound; lia).
    lia.
  - intros Hge.
    assert (100 <= (2 * (loaded * 100) + total) / (2 * total))
      by (apply Z.div_le_lower_bound; lia).
    lia.
  - intros loaded' p' Hle E. injection E as <-.
    apply Z.div_le_mono; lia.
Qed.

Lemma onUploadProgress_percent_witness :
  exists p,
    uploadProgress (ui (onUploadProgress 1999 2000 (init true))) = Some p /\
    0 <= p <= 100.
Proof.
  destruct (onUploadProgress_percent 1999 2000 (init true))
    as (p & Hp & Hb & _); [lia | lia |].
  exists p. split; [exact Hp | exact Hb].
Defined.

Lemma cons_neq {A : Type} (x : A) (l : list A) : l <> x :: l.
Proof.
  intros E. apply (f_equal (@length A)) in E. cbn in E. lia.
Qed.

(** X8: [handleFileSelect] sends the upload request exactly when the
    file's MIME type is one of the four in [validTypes] and its size is at
    most 500 * 1024 * 1024 bytes; in every other case it shows one alert
    and changes nothing else. *)
Theorem handleFileSelect_uploads_iff (file : File.t) (w : World) :
  (uploads (env (handleFileSelect file w)) = file :: uploads (env w) <->
   In (File.type file) validTypes /\ File.size file <= 500 * 1024 * 1024) /\
  (uploads (env (handleFileSelect file w)) <> file :: uploads (env w) ->
   exists msg,
     handleFileSelect file w = alert msg w /\
     alerts (env (handleFileSelect file w)) = msg :: alerts (env w) /\
     ui (handleFileSelect file w) = ui w).
Proof.
  change (500 * 1024 * 1024) with maxSize.
  destruct (handleFileSelect_cases file w)
    as [(Hty & Hsz & ->) | [(Hty & ->) | (Hsz & ->)]].
  - split; [split; [tauto | reflexivity] |].
    intros Hne. exfalso. apply Hne. reflexivity.
  - split.
    + split; [| tauto]. cbn. intros E. exfalso. exact (cons_neq _ _ E).
    + intros _. eexists. repeat split.
  - split.
    + split; [| lia]. cbn. intros E. exfalso. exact (cons_neq _ _ E).
    + intros _. eexists. repeat split.
Qed.

Lemma handleFileSelect_uploads_iff_witness :
  uploads (env (handleFileSelect (File.mk "a.mp4" "video/mp4" 1024)
                  (init true)))
  = [File.mk "a.mp4" "video/mp4" 1024] /\
  exists msg,
    handleFileSelect (File.mk "notes.txt" "text/plain" 1024) (init true)
    = alert msg (init true).
Proof.
  split.
  - apply (proj1 (handleFileSelect_uploads_iff
                    (File.mk "a.mp4" "video/mp4" 1024) (init true))).
    split; [cbn; tauto | cbn; lia].
  - destruct (proj2 (handleFileSelect_uploads_iff
                       (File.mk "notes.txt" "text/plain" 1024) (init true)))
      as (msg & Hmsg & _).
    + cbn. discriminate.
    + exists msg. exact Hmsg.
Defined.

End UploadRunning.

(** * The polling monitor with requests in flight *)

Section AsyncProperties.

Import VideoUpload UploadAsync.

(** The callback of [VideoUpload] is the two halves run back to back. *)
Lemma monitor_split (id : nat) (sid : string) (response : option Status.t)
    (w : World) :
  monitor id sid response w
  = monitor_receive sid response (get_status id sid w).
Proof. reflexivity. Qed.

(** Every step of [VideoUpload] is a run of the split system; with no
    request in flight, a firing answered at once is [Fire] then
    [Settle]. *)
Lemma atomic_step_refined (e : VideoUpload.Event) (w w' : World) :
  VideoUpload.step e w = Some w' ->
  exists es, run es (mkState w []) = Some (mkState w' []).
Proof.
  destruct e; intros Hstep;
    try (eexists [Deliver _];
         cbn [UploadAsync.run UploadAsync.step world polls];
         rewrite Hstep; reflexivity).
  cbn [VideoUpload.step] in Hstep.
  destruct (intervals (env w) !! id) as [sid |] eqn:Hlive; [| discriminate].
  injection Hstep as <-.
  exists [Fire id; Settle 0 response].
  cbn [UploadAsync.run UploadAsync.step world polls].
  rewrite Hlive. reflexivity.
Qed.

Lemma run_app (es es' : list Event) (s s' s'' : State) :
  run es s = Some s' -> run es' s' = Some s'' -> run (es ++ es') s = Some s''.
Proof.
  revert s. induction es as [| e es IH]; intros s H H'; cbn in *.
  - injection H as <-. exact H'.
  - destruct (step e s) as [s1 |]; [| discriminate]. exact (IH s1 H H').
Qed.

Lemma run_reachable_async (es : list Event) (s s' : State) :
  reachable s -> run es s = Some s' -> reachable s'.
Proof.
  revert s. induction es as [| e es IH]; intros s Hs Hrun; cbn in Hrun.
  - injection Hrun as <-. exact Hs.
  - destruct (step e s) as [s1 |] eqn:Hstep; [| discriminate].
    apply (IH s1); [| exact Hrun].
    exact (reach_step s s1 e Hs Hstep).
Qed.

Lemma atomic_reachable (w : World) :
  VideoUpload.reachable w -> reachable (mkState w []).
Proof.
  induction 1 as [callback | w w' e _ IH Hstep].
  - apply reach_init.
  - destruct (atomic_step_refined e w w' Hstep) as (es & Hrun).
    exact (run_reachable_async es _ _ IH Hrun).
Qed.

(** C2: the monitor does not always stop on a terminal status.  In the run
    [raceTrace] timers 2 and 3 are live together and the ref holds timer
    3; when the poll of timer 2 is answered with [completed], the callback
    shows the completed block and calls [onUploadComplete] for session
    [s2], but the timer it clears is timer 3: timer 2 is still live, fires
    again, and sends one more status request for [s2]. *)
Theorem monitor_polls_after_completed :
  exists s s',
    run raceTrace (init true) = Some s /\
    uploadState (ui (world s)) = "completed" /\
    head (completions (env (world s))) = Some ("s2", completedStatus) /\
    processingInterval (ui (world s)) = Some 3%nat /\
    intervals (env (world s)) !! 2%nat = Some "s2" /\
    step (Fire 2) s = Some s' /\
    requests_of 2 (world s') = (2%nat, "s2") :: requests_of 2 (world s).
Proof.
  eexists. eexists.
  split; [vm_compute; reflexivity |].
  repeat split; vm_compute; reflexivity.
Qed.

(** *** What the second half of the callback does *)

Lemma monitor_receive_completed (sid : string) (status : Status.t)
    (w : World) :
  Status.status status = "completed" ->
  monitor_receive sid (Some status) w
  = call_onUploadComplete sid status
      (setUploadState "completed"
        (clearInterval (processingInterval (ui w))
          (setStatusMessage (Status.message status)
            (setProcessProgress (Status.progress status) w)))).
Proof. intros H. unfold monitor_receive. rewrite H. reflexivity. Qed.

Lemma monitor_receive_error (sid : string) (status : Status.t) (w : World) :
  Status.status status = "error" ->
  monitor_receive sid (Some status) w
  = setStatusMessage ("Processing failed: " ++ Status.message status)
      (setUploadState "error"
        (clearInterval (processingInterval (ui w))
          (setStatusMessage (Status.message status)
            (setProcessProgress (Status.progress status) w)))).
Proof. intros H. unfold monitor_receive. rewrite H. reflexivity. Qed.

Lemma monitor_receive_other (sid : string) (status : Status.t) (w : World) :
  Status.status status <> "completed" ->
  Status.status status <> "error" ->
  monitor_receive sid (Some status) w
  = setStatusMessage (Status.message status)
      (setProcessProgress (Status.progress status) w).
Proof.
  intros Hc He. unfold monitor_receive.
  apply String.eqb_neq in Hc, He. rewrite Hc, He. reflexivity.
Qed.

(** Whatever the response, the second half allocates no timer, sends no
    request and leaves the ref alone.  On a terminal status it shows the
    reported state and clears the timer the ref holds; otherwise it leaves
    the timers as they are.  In no case does a timer come to life. *)
Lemma monitor_receive_env (sid : string) (response : option Status.t)
    (w : World) :
  nextTimer (env (monitor_receive sid response w)) = nextTimer (env w) /\
  requests (env (monitor_receive sid response w)) = requests (env w) /\
  processingInterval (ui (monitor_receive sid response w))
  = processingInterval (ui w) /\
  (forall status,
     response = Some status ->
     Status.status status = "completed" \/ Status.status status = "error" ->
     uploadState (ui (monitor_receive sid response w)) = Status.status status /\
     intervals (env (monitor_receive sid response w))
     = match processingInterval (ui w) with
       | Some h => delete h (intervals (env w))
       | None => intervals (env w)
       end) /\
  ((forall status, response = Some status ->
      Status.status status <> "completed" /\
      Status.status status <> "error") ->
   intervals (env (monitor_receive sid response w)) = intervals (env w)) /\
  (forall id s, intervals (env (monitor_receive sid response w)) !! id = Some s
                -> intervals (env w) !! id = Some s).
Proof.
  assert (Hshrink : forall (h : option nat) (m : gmap nat string) id s,
            match h with Some h => delete h m | None => m end !! id = Some s
            -> m !! id = Some s).
  { intros [h |] m id s H; [| exact H].
    apply lookup_delete_Some in H. tauto. }
  destruct response as [status |].
  - destruct (String.eqb_spec (Status.status status) "completed")
      as [Hc | Hc];
      [| destruct (String.eqb_spec (Status.status status) "error")
           as [He | He]].
    + rewrite (monitor_receive_completed _ _ _ Hc).
      rewrite ui_call_onUploadComplete.
      destruct (env_call_onUploadComplete sid status
        (setUploadState "completed"
          (clearInterval (processingInterval (ui w))
            (setStatusMessage (Status.message status)
              (setProcessProgress (Status.progress status) w)))))
        as (-> & -> & _ & ->).
      cbn [setUploadState on_ui env ui]. rewrite ui_clearInterval.
      cbn [setStatusMessage setProcessProgress on_ui ui processingInterval
           uploadState].
      assert (Hint : intervals (env (clearInterval (processingInterval (ui w))
                (setStatusMessage (Status.message status)
                  (setProcessProgress (Status.progress status) w))))
              = match processingInterval (ui w) with
                | Some h => delete h (intervals (env w))
                | None => intervals (env w)
                end)
        by (destruct (processingInterval (ui w)); reflexivity).
      assert (Hnext : nextTimer (env (clearInterval (processingInterval (ui w))
                (setStatusMessage (Status.message status)
                  (setProcessProgress (Status.progress status) w))))
              = nextTimer (env w))
        by (destruct (processingInterval (ui w)); reflexivity).
      assert (Hreq : requests (env (clearInterval (processingInterval (ui w))
                (setStatusMessage (Status.message status)
                  (setProcessProgress (Status.progress status) w))))
              = requests (env w))
        by (destruct (processingInterval (ui w)); reflexivity).
      rewrite Hint, Hnext, Hreq.
      split; [reflexivity |]. split; [reflexivity |]. split; [reflexivity |].
      split; [| split].
      * intros st E _. injection E as <-. rewrite Hc. split; reflexivity.
      * intros Hnot. destruct (Hnot status eq_refl). contradiction.
      * apply Hshrink.
    + rewrite (monitor_receive_error _ _ _ He).
      cbn [setStatusMessage setUploadState on_ui env ui].
      rewrite ui_clearInterval.
      cbn [setStatusMessage setProcessProgress on_ui ui processingInterval
           uploadState].
      assert (Hint : intervals (env (clearInterval (processingInterval (ui w))
                (setStatusMessage (Status.message status)
                  (setProcessProgress (Status.progress status) w))))
              = match processingInterval (ui w) with
                | Some h => delete h (intervals (env w))
                | None => intervals (env w)
                end)
        by (destruct (processingInterval (ui w)); reflexivity).
      assert (Hnext : nextTimer (env (clearInterval (processingInterval (ui w))
                (setStatusMessage (Status.message status)
                  (setProcessProgress (Status.progress status) w))))
              = nextTimer (env w))
        by (destruct (processingInterval (ui w)); reflexivity).
      assert (Hreq : requests (env (clearInterval (processingInterval (ui w))
                (setStatusMessage (Status.message status)
                  (setProcessProgress (Status.progress status) w))))
              = requests (env w))
        by (destruct (processingInterval (ui w)); reflexivity).
      rewrite Hint, Hnext, Hreq.
      split; [reflexivity |]. split; [reflexivity |]. split; [reflexivity |].
      split; [| split].
      * intros st E _. injection E as <-. rewrite He. split; reflexivity.
      * intros Hnot. destruct (Hnot status eq_refl). contradiction.
      * apply Hshrink.
    + rewrite (monitor_receive_other _ _ _ Hc He).
      split; [reflexivity |]. split; [reflexivity |]. split; [reflexivity |].
      split; [| split].
      * intros st E [H | H]; injection E as <-; contradiction.
      * intros _. reflexivity.
      * intros id s H. exact H.
  - split; [reflexivity |]. split; [reflexivity |]. split; [reflexivity |].
    split; [| split].
    + intros st E. discriminate.
    + intros _. reflexivity.
    + intros id s H. exact H.
Qed.

(** *** Handles are never reused *)

Lemma Fresh_ext (w w' : World) :
  processingInterval (ui w') = processingInterval (ui w) ->
  nextTimer (env w') = nextTimer (env w) ->
  (forall id sid, intervals (env w') !! id = Some sid ->
                  intervals (env w) !! id = Some sid) ->
  Fresh w -> Fresh w'.
Proof.
  intros Hp Hn Hi [H1 H2]. constructor.
  - intros id sid H. rewrite Hn. exact (H1 id sid (Hi id sid H)).
  - intros h H. rewrite Hn. apply H2. rewrite <- Hp. exact H.
Qed.

Lemma Fresh_monitor_receive (sid : string) (response : option Status.t)
    (w : World) :
  Fresh w -> Fresh (monitor_receive sid response w).
Proof.
  intros HF.
  destruct (monitor_receive_env sid response w)
    as (Hn & _ & Hp & _ & _ & Hi).
  exact (Fresh_ext w _ Hp Hn Hi HF).
Qed.

Lemma Fresh_step (e : VideoUpload.Event) (w w' : World) :
  Fresh w -> VideoUpload.step e w = Some w' -> Fresh w'.
Proof.
  destruct e; intros HF Hstep; cbn [VideoUpload.step] in Hstep.
  - destruct (shows "idle" w); [| discriminate]. injection Hstep as <-.
    apply (Fresh_ext w); [reflexivity | reflexivity | trivial | exact HF].
  - destruct (shows "idle" w); [| discriminate]. injection Hstep as <-.
    apply (Fresh_ext w); [reflexivity | reflexivity | trivial | exact HF].
  - destruct (shows "idle" w); [| discriminate]. injection Hstep as <-.
    unfold handleDrop. destruct files as [| file files];
      [apply (Fresh_ext w); [reflexivity | reflexivity | trivial | exact HF] |].
    destruct (handleFileSelect_cases file (setIsDragOver false w))
      as [(_ & _ & ->) | [(_ & ->) | (_ & ->)]];
      (apply (Fresh_ext w); [reflexivity | reflexivity | trivial | exact HF]).
  - destruct (shows "idle" w); [| discriminate]. injection Hstep as <-.
    unfold handleFileInputChange. destruct files as [| file files];
      [exact HF |].
    destruct (handleFileSelect_cases file w)
      as [(_ & _ & ->) | [(_ & ->) | (_ & ->)]];
      (apply (Fresh_ext w); [reflexivity | reflexivity | trivial | exact HF]).
  - destruct (uploads (env w)); [discriminate |]. injection Hstep as <-.
    apply (Fresh_ext w); [reflexivity | reflexivity | trivial | exact HF].
  - destruct (uploads (env w) !! i); [| discriminate]. injection Hstep as <-.
    destruct HF as [H1 H2]. constructor; cbn.
    + intros id sid H. apply lookup_insert_Some in H.
      destruct H as [(<- & _) | (_ & H)]; [lia |].
      pose proof (H1 id sid H). lia.
    + intros h H. injection H as <-. lia.
  - destruct (uploads (env w) !! i); [| discriminate]. injection Hstep as <-.
    apply (Fresh_ext w); [reflexivity | reflexivity | trivial | exact HF].
  - destruct (intervals (env w) !! id) as [sid |]; [| discriminate].
    injection Hstep as <-. rewrite monitor_split.
    apply Fresh_monitor_receive.
    apply (Fresh_ext w); [reflexivity | reflexivity | trivial | exact HF].
  - destruct (shows "completed" w || shows "error" w); [| discriminate].
    injection Hstep as <-.
    destruct (resetUpload_env w) as (Hui & Hn & _ & _ & Hint).
    apply (Fresh_ext w); [rewrite Hui; reflexivity | exact Hn | | exact HF].
    intros id sid H. destruct Hint as [Hi | (h & Hi)]; rewrite Hi in H;
      [exact H |].
    apply lookup_delete_Some in H. tauto.
Qed.

Lemma reachable_Fresh (s : State) : reachable s -> Fresh (world s).
Proof.
  induction 1 as [callback | s s' e _ IH Hstep].
  - constructor; cbn.
    + intros id sid H. rewrite lookup_empty in H. discriminate.
    + discriminate.
  - destruct e as [e' | id | k response]; cbn [UploadAsync.step] in Hstep.
    + destruct e';
        try (destruct (VideoUpload.step _ (world s)) as [w' |] eqn:E;
             [| discriminate]; injection Hstep as <-;
             exact (Fresh_step _ _ _ IH E)).
      discriminate.
    + destruct (intervals (env (world s)) !! id) as [sid |]; [| discriminate].
      injection Hstep as <-.
      apply (Fresh_ext (world s));
        [reflexivity | reflexivity | trivial | exact IH].
    + destruct (polls s !! k) as [[id sid] |]; [| discriminate].
      injection Hstep as <-. apply Fresh_monitor_receive. exact IH.
Qed.

(** A timer that is not live and whose handle has been handed out is
    never live again, and no request is sent in its name. *)
Lemma async_step_cleared (h : nat) (e : Event) (s s' : State) :
  intervals (env (world s)) !! h = None ->
  (h < nextTimer (env (world s)))%nat ->
  step e s = Some s' ->
  intervals (env (world s')) !! h = None /\
  (h < nextTimer (env (world s')))%nat /\
  requests_of h (world s') = requests_of h (world s).
Proof.
  intros Hdead Hold Hstep.
  destruct e as [e' | id | k response]; cbn [UploadAsync.step] in Hstep.
  - destruct e';
      try (destruct (VideoUpload.step _ (world s)) as [w' |] eqn:E;
           [| discriminate]; injection Hstep as <-;
           exact (step_cleared h _ _ _ Hdead Hold E)).
    discriminate.
  - destruct (intervals (env (world s)) !! id) as [sid |] eqn:Hlive;
      [| discriminate].
    injection Hstep as <-. cbn. repeat split; try assumption.
    unfold requests_of. cbn.
    assert (Hne : id <> h) by congruence.
    apply Nat.eqb_neq in Hne. rewrite Hne. reflexivity.
  - destruct (polls s !! k) as [[id sid] |]; [| discriminate].
    injection Hstep as <-. cbn [world].
    destruct (monitor_receive_env sid response (world s))
      as (Hn & Hr & _ & _ & _ & Hi).
    repeat split.
    + destruct (intervals (env (monitor_receive sid response (world s))) !! h)
        as [x |] eqn:E; [| reflexivity].
      rewrite (Hi h x E) in Hdead. discriminate.
    + rewrite Hn. exact Hold.
    + unfold requests_of. rewrite Hr. reflexivity.
Qed.

Lemma async_run_cleared (h : nat) (es : list Event) (s s' : State) :
  intervals (env (world s)) !! h = None ->
  (h < nextTimer (env (world s)))%nat ->
  run es s = Some s' ->
  intervals (env (world s')) !! h = None /\
  requests_of h (world s') = requests_of h (world s).
Proof.
  revert s. induction es as [| e es IH]; intros s Hdead Hold Hrun;
    cbn in Hrun.
  - injection Hrun as <-. split; [assumption | reflexivity].
  - destruct (step e s) as [s1 |] eqn:Hstep; [| discriminate].
    destruct (async_step_cleared h e s s1 Hdead Hold Hstep)
      as (Hd1 & Ho1 & Hr1).
    destruct (IH s1 Hd1 Ho1 Hrun) as (Hd & Hr).
    split; [exact Hd | congruence].
Qed.

(** X22: in every reachable state, with status requests left in flight
    for as long as the network likes, the answer to a request is handled
    as follows.  If it reports [completed] or [error], the component shows
    that state and the timer that the ref holds at that moment, and no
    other, is cleared; that timer never fires again and no further status
    request is sent in its name, whatever happens next.  Any other
    status, and a failed request, leaves every timer as it was. *)
Theorem settled_poll_clears_ref (s : State) (k id : nat) (sid : string)
    (response : option Status.t) :
  reachable s ->
  polls s !! k = Some (id, sid) ->
  exists s',
    step (Settle k response) s = Some s' /\
    ((forall status, response = Some status ->
        Status.status status <> "completed" /\
        Status.status status <> "error") ->
     intervals (env (world s')) = intervals (env (world s))) /\
    (forall status h,
       response = Some status ->
       Status.status status = "completed" \/ Status.status status = "error" ->
       processingInterval (ui (world s)) = Some h ->
       uploadState (ui (world s')) = Status.status status /\
       intervals (env (world s')) = delete h (intervals (env (world s))) /\
       forall es s'',
         run es s' = Some s'' ->
         step (Fire h) s'' = None /\
         requests_of h (world s'') = requests_of h (world s')).
Proof.
  intros Hs Hk. pose proof (reachable_Fresh s Hs) as HF.
  exists (mkState (monitor_receive sid response (world s))
                  (delete k (polls s))).
  split; [cbn [UploadAsync.step]; rewrite Hk; reflexivity |].
  cbn [world].
  destruct (monitor_receive_env sid response (world s))
    as (Hn & _ & _ & Hterm & Hother & _).
  split; [exact Hother |].
  intros status h E Ht Href.
  destruct (Hterm status E Ht) as (Hst & Hi). rewrite Href in Hi.
  split; [exact Hst |]. split; [exact Hi |].
  intros es s'' Hrun.
  destruct (async_run_cleared h es
              (mkState (monitor_receive sid response (world s))
                       (delete k (polls s))) s'') as (Hd & Hr).
  - cbn [world]. rewrite Hi. apply lookup_delete_eq.
  - cbn [world]. rewrite Hn. exact (fresh_ref _ HF h Href).
  - exact Hrun.
  - split; [| exact Hr]. cbn [UploadAsync.step]. rewrite Hd. reflexivity.
Qed.

Lemma demoPolling_reachable : reachable demoPolling.
Proof.
  apply (reach_step (mkState UploadView.demoProcessing []) demoPolling
           (Fire 1)).
  - apply atomic_reachable. exact demoProcessing_reachable.
  - vm_compute. reflexivity.
Qed.

Lemma settled_poll_clears_ref_witness :
  exists s',
    step (Settle 0 (Some completedStatus)) demoPolling = Some s' /\
    uploadState (ui (world s')) = "completed" /\
    intervals (env (world s'))
    = delete 1%nat (intervals (env (world demoPolling))).
Proof.
  assert (Hk : polls demoPolling !! 0%nat = Some (1%nat, "s1"))
    by (vm_compute; reflexivity).
  assert (Href : processingInterval (ui (world demoPolling)) = Some 1%nat)
    by (vm_compute; reflexivity).
  destruct (settled_poll_clears_ref demoPolling 0 1 "s1"
              (Some completedStatus) demoPolling_reachable Hk)
    as (s' & Hstep & _ & Hterm).
  destruct (Hterm completedStatus 1%nat eq_refl (or_introl eq_refl) Href)
    as (Hst & Hi & _).
  exists s'. split; [exact Hstep |]. split; [exact Hst | exact Hi].
Defined.

End AsyncProperties.

(** * Further properties of the timeline page *)

Section TimelineExtras.

Import Timeline TimelinePage.

Lemma truthy_str_iff (s : string) : Js.truthy_str s = true <-> s <> "".
Proof. destruct s; cbn; split; congruence. Qed.

Lemma set_add_In (acc : list string) (t u : string) :
  In u (set_add acc t) <-> In u acc \/ u = t.
Proof.
  unfold set_add. destruct (Js.includes acc t) eqn:E.
  - apply includes_In in E. split; [tauto |].
    intros [H | ->]; assumption.
  - rewrite in_app_iff. cbn. intuition congruence.
Qed.

Lemma set_add_NoDup (acc : list string) (t : string) :
  NoDup acc -> NoDup (set_add acc t).
Proof.
  intros Hnd. unfold set_add. destruct (Js.includes acc t) eqn:E;
    [exact Hnd |].
  apply NoDup_app. split; [exact Hnd |]. split.
  - intros x Hx Hxt. apply list_elem_of_In in Hx, Hxt.
    destruct Hxt as [<- | []].
    apply includes_In in Hx. congruence.
  - apply NoDup_singleton.
Qed.

Lemma fold_set_add (l : list string) :
  forall acc : list string,
    NoDup acc ->
    NoDup (fold_left set_add l acc) /\
    forall u, In u (fold_left set_add l acc) <-> In u acc \/ In u l.
Proof.
  induction l as [| t l IH]; intros acc Hnd; cbn.
  - split; [exact Hnd | tauto].
  - destruct (IH (set_add acc t) (set_add_NoDup acc t Hnd)) as (H1 & H2).
    split; [exact H1 |]. intros u. rewrite H2, set_add_In.
    intuition congruence.
Qed.

Lemma fold_segments_topics (segs : list Segment.t) :
  forall acc : list string,
    NoDup acc ->
    NoDup (fold_left (fun acc segment =>
                        fold_left set_add (Segment.key_topics segment) acc)
                     segs acc) /\
    forall u,
      In u (fold_left (fun acc segment =>
                         fold_left set_add (Segment.key_topics segment) acc)
                      segs acc)
      <-> In u acc \/
          exists segment, In segment segs /\
                          In u (Segment.key_topics segment).
Proof.
  induction segs as [| seg segs IH]; intros acc Hnd; cbn.
  - split; [exact Hnd |]. intros u. split; [tauto |].
    intros [H | (x & [] & _)]. exact H.
  - destruct (fold_set_add (Segment.key_topics seg) acc Hnd) as (H1 & H2).
    destruct (IH _ H1) as (H3 & H4).
    split; [exact H3 |]. intros u. rewrite H4, H2. split.
    + intros [[H | H] | (x & Hx & Hu)].
      * now left.
      * right. exists seg. split; [now left | exact H].
      * right. exists x. split; [now right | exact Hu].
    + intros [H | (x & [<- | Hx] & Hu)].
      * left. now left.
      * left. now right.
      * right. exists x. split; assumption.
Qed.

(** X10: [getAllTopics] lists every topic of every segment of the loaded
    result, each once, and nothing else; without a loaded result it is
    empty. *)
Theorem getAllTopics_exact (p : Page) :
  NoDup (getAllTopics p) /\
  (forall u,
     In u (getAllTopics p) <->
     exists data segment,
       timelineData p = Some data /\
       In segment (timeline_segments data) /\
       In u (Segment.key_topics segment)) /\
  (timelineData p = None -> getAllTopics p = []).
Proof.
  unfold getAllTopics. destruct (timelineData p) as [data |].
  - destruct (fold_segments_topics (timeline_segments data) [] (NoDup_nil_2))
      as (H1 & H2).
    split; [exact H1 |]. split; [| discriminate].
    intros u. rewrite H2. split.
    + intros [[] | (seg & Hs & Hu)]. exists data, seg. repeat split; assumption.
    + intros (d & seg & E & Hs & Hu). injection E as <-.
      right. exists seg. split; assumption.
  - split; [constructor |]. split; [| reflexivity].
    intros u. split; [intros [] | intros (d & seg & E & _); discriminate].
Qed.

Lemma filter_sublist_mono {A : Type} (f g : A -> bool) (l : list A) :
  (forall x, f x = true -> g x = true) ->
  sublist (List.filter f l) (List.filter g l).
Proof.
  intros Hfg. induction l as [| a l IH]; cbn; [constructor |].
  destruct (f a) eqn:Ef.
  - rewrite (Hfg a Ef). apply sublist_skip. exact IH.
  - destruct (g a); [apply sublist_cons |]; exact IH.
Qed.

Lemma matches_topics_iff (selected : list string) (segment : Segment.t) :
  matches_topics selected segment = true <->
  exists t, In t (Segment.key_topics segment) /\ In t selected.
Proof.
  unfold matches_topics, Js.some. rewrite existsb_exists.
  split; intros (t & Ht & Hs); exists t; split; try exact Ht;
    apply includes_In; exact Hs.
Qed.

(** X11: on loaded data a segment is among the filtered segments exactly
    when it is a segment of the result, the search term is empty or the
    segment matches it, and no topic is selected or the segment carries at
    least one of the selected topics. *)
Theorem filtered_membership (toLowerCase : string -> string)
    (data : TimelineData) (term : string) (selected : list string)
    (segment : Segment.t) :
  In segment (filtered_of toLowerCase data term selected) <->
  In segment (timeline_segments data) /\
  (term = "" \/ matches_search toLowerCase term segment = true) /\
  (selected = [] \/
   exists t, In t (Segment.key_topics segment) /\ In t selected).
Proof.
  unfold filtered_of.
  rewrite <- matches_topics_iff.
  destruct term as [| c term]; destruct selected as [| t selected];
    cbn [Js.truthy_str length Nat.ltb Nat.leb];
    rewrite ?filter_In; intuition discriminate.
Qed.

Lemma toggle_NoDup (t : string) (s : list string) :
  NoDup s -> NoDup (toggle t s).
Proof.
  intros Hnd. unfold toggle. destruct (Js.includes s t) eqn:E.
  - clear E. induction s as [| a s IH]; cbn; [constructor |].
    apply NoDup_cons in Hnd. destruct Hnd as (Ha & Hnd).
    destruct (negb (String.eqb a t)); [| exact (IH Hnd)].
    apply NoDup_cons. split; [| exact (IH Hnd)].
    intros Hin. apply Ha. apply list_elem_of_In in Hin.
    apply filter_In in Hin. apply list_elem_of_In. tauto.
  - apply NoDup_app. split; [exact Hnd |]. split; [| apply NoDup_singleton].
    intros x Hx Hxt. apply list_elem_of_In in Hx, Hxt.
    destruct Hxt as [<- | []]. apply includes_In in Hx. congruence.
Qed.

Lemma toggle_In (t u : string) (s : list string) :
  In u (toggle t s) -> u = t \/ In u s.
Proof.
  unfold toggle. destruct (Js.includes s t).
  - intros H. apply filter_In in H. tauto.
  - rewrite in_app_iff. cbn. intuition congruence.
Qed.

(** X12: while at least one topic is selected, selecting one more never
    hides a segment: what was shown is a subsequence of what is shown
    after the toggle. *)
Theorem toggleTopic_widens (toLowerCase : string -> string) (p : Page)
    (data : TimelineData) (t : string) :
  timelineData p = Some data ->
  selectedTopics p <> [] ->
  ~ In t (selectedTopics p) ->
  sublist (filteredSegments (filterSegments toLowerCase p))
          (filteredSegments (filterSegments toLowerCase (toggleTopic t p))).
Proof.
  intros Hdata Hne Hnin. unfold filterSegments. cbn. rewrite Hdata. cbn.
  rewrite (toggle_absent t _ Hnin). unfold filtered_of.
  destruct (selectedTopics p) as [| a sel]; [congruence |].
  cbn [length app Nat.ltb Nat.leb].
  apply filter_sublist_mono. intros seg Hm.
  apply matches_topics_iff in Hm.
  apply matches_topics_iff.
  destruct Hm as (u & Hu & Hs). exists u. split; [exact Hu |].
  change (a :: (sel ++ [t])%list) with ((a :: sel) ++ [t])%list.
  apply in_or_app. left. exact Hs.
Qed.

Lemma toggleTopic_widens_witness :
  sublist
    (filteredSegments
       (filterSegments ascii_toLowerCase (demoPage "" ["Intro"])))
    (filteredSegments
       (filterSegments ascii_toLowerCase
          (toggleTopic "Plans" (demoPage "" ["Intro"])))).
Proof.
  apply (toggleTopic_widens ascii_toLowerCase (demoPage "" ["Intro"])
           demoData "Plans").
  - reflexivity.
  - cbn. discriminate.
  - cbn. intuition discriminate.
Defined.

(** X13: the search does not see the case of the term: two non-empty
    terms with the same lower-case form select the same segments. *)
Theorem search_ignores_case (toLowerCase : string -> string)
    (data : TimelineData) (term term' : string) (selected : list string) :
  term <> "" -> term' <> "" ->
  toLowerCase term = toLowerCase term' ->
  filtered_of toLowerCase data term selected
  = filtered_of toLowerCase data term' selected.
Proof.
  intros Hn Hn' E. unfold filtered_of.
  apply truthy_str_iff in Hn, Hn'. rewrite Hn, Hn'.
  unfold matches_search. rewrite E. reflexivity.
Qed.

Lemma search_ignores_case_witness :
  filtered_of ascii_toLowerCase demoData "ROAD" []
  = filtered_of ascii_toLowerCase demoData "Road" [].
Proof.
  apply search_ignores_case.
  - discriminate.
  - discriminate.
  - reflexivity.
Defined.

(** *** The invariant of the reachable pages *)

Lemma PageInv_init (toLowerCase : string -> string) :
  PageInv toLowerCase initPage.
Proof.
  constructor; cbn; try tauto; try discriminate.
  constructor.
Qed.

Lemma showsTimeline_true (p : Page) :
  showsTimeline p = true -> loading p = false /\ error p = None.
Proof.
  unfold showsTimeline. destruct (loading p), (error p); cbn;
    intros H; try discriminate; split; reflexivity.
Qed.

(** Changing the search term or the selection on a page that shows its
    timeline, and letting the effect run, keeps the invariant. *)
Lemma PageInv_refilter (toLowerCase : string -> string) (p : Page)
    (term : string) (selected : list string) :
  PageInv toLowerCase p ->
  showsTimeline p = true ->
  NoDup selected ->
  (forall t, In t selected -> In t (getAllTopics p)) ->
  PageInv toLowerCase
    (effect toLowerCase
       (mkPage (timelineData p) (loading p) (error p) term selected
          (filteredSegments p))).
Proof.
  intros HP Hshow Hnd Hsub.
  destruct (showsTimeline_true p Hshow) as (Hl & He).
  pose proof (page_loaded toLowerCase p HP Hshow) as Hdata.
  unfold effect, filterSegments. cbn.
  destruct (timelineData p) as [data |] eqn:E; [| congruence].
  unfold getAllTopics in Hsub. rewrite E in Hsub.
  constructor; cbn.
  - reflexivity.
  - exact Hnd.
  - exact Hsub.
  - rewrite Hl. discriminate.
  - discriminate.
  - rewrite He. congruence.
Qed.

Lemma PageInv_step (toLowerCase : string -> string) (e : Event)
    (p p' : Page) :
  PageInv toLowerCase p -> step toLowerCase e p = Some p' ->
  PageInv toLowerCase p'.
Proof.
  intros HP Hstep. destruct e; cbn [step] in Hstep.
  - destruct (loading p) eqn:Hl; [| discriminate].
    injection Hstep as <-.
    destruct (page_loading toLowerCase p HP Hl) as (Hd & He & Ht).
    assert (Hsel : selectedTopics p = []).
    { destruct (selectedTopics p) as [| t sel] eqn:Es; [reflexivity |].
      exfalso. pose proof (page_topics toLowerCase p HP t) as Hin.
      rewrite Es in Hin. unfold getAllTopics in Hin. rewrite Hd in Hin.
      apply Hin. now left. }
    pose proof (page_sync toLowerCase p HP) as Hsync. rewrite Hd in Hsync.
    destruct response as [data |]; unfold effect, filterSegments; cbn.
    + constructor; cbn; try discriminate.
      * reflexivity.
      * rewrite Hsel. constructor.
      * rewrite Hsel. intros t [].
      * rewrite He. congruence.
    + rewrite Hd. constructor; cbn; try discriminate.
      * rewrite Hd. exact Hsync.
      * rewrite Hsel. constructor.
      * rewrite Hsel. intros t [].
      * intros _. split; [exact Hd | reflexivity].
  - destruct (showsTimeline p) eqn:Hshow; [| discriminate].
    injection Hstep as <-.
    destruct (String.eqb value (searchTerm p)); [exact HP |].
    apply (PageInv_refilter toLowerCase p value (selectedTopics p) HP Hshow).
    + exact (page_nodup toLowerCase p HP).
    + exact (page_topics toLowerCase p HP).
  - destruct (showsTimeline p) eqn:Hshow; [| discriminate].
    cbn [andb] in Hstep.
    destruct (Js.truthy_str value) eqn:Hv; cbn [negb orb] in Hstep.
    + destruct (Js.includes (getAllTopics p) value) eqn:Hin; [| discriminate].
      injection Hstep as <-. apply includes_In in Hin.
      apply (PageInv_refilter toLowerCase p (searchTerm p)
               (toggle value (selectedTopics p)) HP Hshow).
      * apply toggle_NoDup. exact (page_nodup toLowerCase p HP).
      * intros t Ht. apply toggle_In in Ht. destruct Ht as [-> | Ht].
        -- exact Hin.
        -- exact (page_topics toLowerCase p HP t Ht).
    + injection Hstep as <-. exact HP.
  - destruct (showsTimeline p) eqn:Hshow; [| discriminate].
    cbn [andb] in Hstep.
    destruct (Js.includes (selectedTopics p) topic) eqn:Hin; [| discriminate].
    injection Hstep as <-. apply includes_In in Hin.
    apply (PageInv_refilter toLowerCase p (searchTerm p)
             (toggle topic (selectedTopics p)) HP Hshow).
    + apply toggle_NoDup. exact (page_nodup toLowerCase p HP).
    + intros t Ht. apply toggle_In in Ht. destruct Ht as [-> | Ht].
      * exact (page_topics toLowerCase p HP topic Hin).
      * exact (page_topics toLowerCase p HP t Ht).
  - destruct (showsTimeline p) eqn:Hshow; [| discriminate].
    cbn [andb] in Hstep.
    destruct (length (filteredSegments p) =? 0)%nat; [| discriminate].
    injection Hstep as <-.
    apply (PageInv_refilter toLowerCase p "" [] HP Hshow).
    + constructor.
    + intros t [].
Qed.

Lemma reachable_PageInv (toLowerCase : string -> string) (p : Page) :
  reachable toLowerCase p -> PageInv toLowerCase p.
Proof.
  induction 1 as [| p p' e _ IH Hstep].
  - apply PageInv_init.
  - exact (PageInv_step toLowerCase e p p' IH Hstep).
Qed.

Lemma getAllTopics_In (p : Page) (u : string) :
  In u (getAllTopics p) ->
  exists data segment,
    timelineData p = Some data /\
    In segment (timeline_segments data) /\
    In u (Segment.key_topics segment).
Proof.
  unfold getAllTopics. destruct (timelineData p) as [data |]; [| intros []].
  intros Hin.
  apply (proj2 (fold_segments_topics (timeline_segments data) []
                  NoDup_nil_2)) in Hin.
  destruct Hin as [[] | (seg & Hs & Hu)].
  exists data, seg. repeat split; assumption.
Qed.

Lemma demoLoaded_reachable : reachable ascii_toLowerCase demoLoaded.
Proof.
  apply (reach_step ascii_toLowerCase initPage demoLoaded
           (FetchSettled (Some demoData))).
  - apply reach_init.
  - vm_compute. reflexivity.
Qed.

Lemma demoSelected_reachable : reachable ascii_toLowerCase demoSelected.
Proof.
  apply (reach_step ascii_toLowerCase demoLoaded demoSelected
           (SelectTopic "Plans")).
  - exact demoLoaded_reachable.
  - vm_compute. reflexivity.
Qed.

Lemma demoNoMatch_reachable : reachable ascii_toLowerCase demoNoMatch.
Proof.
  apply (reach_step ascii_toLowerCase demoLoaded demoNoMatch
           (TypeSearch "zebra")).
  - exact demoLoaded_reachable.
  - vm_compute. reflexivity.
Qed.

Lemma demoFetchFailed_reachable :
  reachable ascii_toLowerCase demoFetchFailed.
Proof.
  apply (reach_step ascii_toLowerCase initPage demoFetchFailed
           (FetchSettled None)).
  - apply reach_init.
  - vm_compute. reflexivity.
Qed.

(** X15: on every reachable page no topic is selected twice, and every
    selected topic is one of the topics [getAllTopics] offers. *)
Theorem selectedTopics_wellformed (toLowerCase : string -> string)
    (p : Page) :
  reachable toLowerCase p ->
  NoDup (selectedTopics p) /\
  forall t, In t (selectedTopics p) -> In t (getAllTopics p).
Proof.
  intros Hp. pose proof (reachable_PageInv toLowerCase p Hp) as HP.
  split; [exact (page_nodup toLowerCase p HP) |
          exact (page_topics toLowerCase p HP)].
Qed.

Lemma selectedTopics_wellformed_witness :
  NoDup (selectedTopics demoSelected).
Proof.
  exact (proj1 (selectedTopics_wellformed ascii_toLowerCase demoSelected
                  demoSelected_reachable)).
Defined.

(** X17: the "Clear all filters" button, clicked on a reachable page,
    empties the search term and the selection and puts every segment of
    the loaded result back on display. *)
Theorem clear_filters_shows_all (toLowerCase : string -> string)
    (p p' : Page) :
  reachable toLowerCase p ->
  step toLowerCase ClearFilters p = Some p' ->
  exists data,
    timelineData p' = Some data /\
    filteredSegments p' = timeline_segments data /\
    searchTerm p' = "" /\
    selectedTopics p' = [].
Proof.
  intros Hp Hstep. pose proof (reachable_PageInv toLowerCase p Hp) as HP.
  cbn [step] in Hstep.
  destruct (showsTimeline p) eqn:Hshow; [| discriminate].
  cbn [andb] in Hstep.
  destruct (length (filteredSegments p) =? 0)%nat; [| discriminate].
  injection Hstep as <-.
  pose proof (page_loaded toLowerCase p HP Hshow) as Hd.
  unfold effect, filterSegments. cbn.
  destruct (timelineData p) as [data |] eqn:E; [| congruence].
  exists data. cbn. repeat split. exact E.
Qed.

Lemma clear_filters_shows_all_witness :
  exists p' data,
    step ascii_toLowerCase ClearFilters demoNoMatch = Some p' /\
    timelineData p' = Some data /\
    filteredSegments p' = timeline_segments data.
Proof.
  assert (Hstep : step ascii_toLowerCase ClearFilters demoNoMatch
                  = Some (effect ascii_toLowerCase
                            (setSelectedTopics (fun _ => [])
                               (setSearchTerm "" demoNoMatch))))
    by (vm_compute; reflexivity).
  destruct (clear_filters_shows_all ascii_toLowerCase demoNoMatch _
              demoNoMatch_reachable Hstep) as (data & Hd & Hf & _).
  eexists. exists data. split; [exact Hstep |]. split; [exact Hd | exact Hf].
Defined.

(** X18: once the request for the results has failed, the page shows the
    error block for good: no event of the page (no late response, no
    search, no topic click) is accepted any more. *)
Theorem failed_load_is_final (toLowerCase : string -> string) (p : Page) :
  reachable toLowerCase p ->
  error p <> None ->
  forall e, step toLowerCase e p = None.
Proof.
  intros Hp He. pose proof (reachable_PageInv toLowerCase p Hp) as HP.
  destruct (page_failed toLowerCase p HP He) as (_ & Hl).
  assert (Hshow : showsTimeline p = false).
  { unfold showsTimeline. destruct (error p); [| congruence].
    apply andb_false_r. }
  intros e. destruct e; cbn [step]; rewrite ?Hl, ?Hshow; reflexivity.
Qed.

Lemma failed_load_is_final_witness :
  step ascii_toLowerCase (TypeSearch "road") demoFetchFailed = None /\
  step ascii_toLowerCase (FetchSettled (Some demoData)) demoFetchFailed
  = None.
Proof.
  assert (He : error demoFetchFailed <> None)
    by (vm_compute; discriminate).
  split; apply (failed_load_is_final ascii_toLowerCase demoFetchFailed
                  demoFetchFailed_reachable He).
Defined.

Lemma str_includes_nonempty (s t : string) :
  t <> "" -> Js.str_includes s t = true -> s <> "".
Proof.
  intros Ht H E. subst s. destruct t; [congruence | discriminate].
Qed.

(** X19: the box shown for a segment's summary is the audio-processing
    notice exactly when the summary contains "[Audio detected", the
    visual-content-only notice exactly when the summary is empty or reads
    "No discussion - Visual only", and the discussion summary in every
    other case. *)
Theorem summaryBox_cases (summary : string) :
  (summaryBox summary = AudioProcessing <->
   Js.str_includes summary "[Audio detected" = true) /\
  (summaryBox summary = VisualContentOnly <->
   summary = "" \/ summary = "No discussion - Visual only") /\
  (summaryBox summary = DiscussionSummary <->
   summary <> "" /\ summary <> "No discussion - Visual only" /\
   Js.str_includes summary "[Audio detected" = false).
Proof.
  unfold summaryBox.
  destruct (Js.str_includes summary "[Audio detected") eqn:Einc.
  - assert (Hne : summary <> "")
      by (apply (str_includes_nonempty _ "[Audio detected");
          [discriminate | exact Einc]).
    assert (Hnv : summary <> "No discussion - Visual only")
      by (intros ->; vm_compute in Einc; discriminate).
    apply truthy_str_iff in Hne as Htr. rewrite Htr.
    rewrite andb_false_r. cbn.
    repeat split; intros; intuition (discriminate || congruence).
  - destruct (Js.truthy_str summary) eqn:Htr; cbn.
    + apply truthy_str_iff in Htr.
      destruct (String.eqb_spec summary "No discussion - Visual only")
        as [-> | Hnv]; cbn;
        repeat split; intros; intuition (discriminate || congruence).
    + assert (Hs : summary = "")
        by (destruct summary; [reflexivity | discriminate]).
      subst summary.
      repeat split; intros; intuition (discriminate || congruence).
Qed.

End TimelineExtras.

(** * The transcript block *)

Section TranscriptProperties.

Import TimelineView.

Lemma prefix_trans (a : string) :
  forall b c : string,
    String.prefix a b = true -> String.prefix b c = true ->
    String.prefix a c = true.
Proof.
  induction a as [| x a IH]; intros b c Hab Hbc.
  - destruct c; reflexivity.
  - destruct b as [| y b]; [discriminate |].
    destruct c as [| z c]; [discriminate |].
    cbn in *. destruct (ascii_dec x y) as [-> | ]; [| discriminate].
    destruct (ascii_dec y z) as [-> | ]; [| discriminate].
    exact (IH b c Hab Hbc).
Qed.

(** A string that contains [t] contains every prefix of [t]. *)
Lemma str_includes_prefix (t' t s : string) :
  String.prefix t' t = true ->
  Js.str_includes s t = true -> Js.str_includes s t' = true.
Proof.
  intros Hp. induction s as [| c s IH]; cbn [Js.str_includes]; intros H.
  - rewrite orb_false_r in *. exact (prefix_trans t' t "" Hp H).
  - apply orb_true_iff in H. apply orb_true_iff. destruct H as [H | H].
    + left. exact (prefix_trans t' t _ Hp H).
    + right. exact (IH H).
Qed.

Lemma all_space_no_bracket (s : string) :
  all_space s = true -> Js.str_includes s "[" = false.
Proof.
  induction s as [| c s IH]; intros H; [reflexivity |].
  cbn [all_space] in H. apply andb_true_iff in H. destruct H as (Hc & Hs).
  cbn [Js.str_includes String.prefix]. rewrite (IH Hs), orb_false_r.
  destruct (ascii_dec "[" c) as [<- | ]; [| reflexivity].
  vm_compute in Hc. discriminate.
Qed.

Lemma trimEnd_empty (s : string) : trimEnd s = "" -> all_space s = true.
Proof.
  induction s as [| c s IH]; [reflexivity |]. cbn.
  destruct (trimEnd s); [| discriminate].
  destruct (is_space c); [| discriminate].
  intros _. cbn. apply IH. reflexivity.
Qed.

Lemma trimStart_all_space (s : string) :
  all_space (trimStart s) = true -> all_space s = true.
Proof.
  induction s as [| c s IH]; [reflexivity |]. cbn.
  destruct (is_space c) eqn:Ec; cbn.
  - exact IH.
  - rewrite Ec. discriminate.
Qed.

Lemma ascii_trim_blank (s : string) :
  ascii_trim s = "" -> Js.str_includes s "[" = false.
Proof.
  intros H. apply all_space_no_bracket, trimStart_all_space, trimEnd_empty.
  exact H.
Qed.

(** X21: for any [trim] that empties no string containing "[", the
    transcript block is the "transcript unavailable" notice exactly when
    the transcript contains "[Audio detected - transcript not available",
    "No audio detected" exactly when the transcript is empty or trims to
    nothing, and the quoted transcript in every other case; so a
    transcript that contains "[Audio detected" without the longer marker
    is quoted. *)
Theorem transcriptBox_cases (trim : string -> string) (transcript : string) :
  (forall s, trim s = "" -> Js.str_includes s "[" = false) ->
  (transcriptBox trim transcript = TranscriptUnavailable <->
   Js.str_includes transcript "[Audio detected - transcript not available"
   = true) /\
  (transcriptBox trim transcript = NoAudioDetected <->
   transcript = "" \/ trim transcript = "") /\
  (transcriptBox trim transcript = Quotation <->
   transcript <> "" /\ trim transcript <> "" /\
   Js.str_includes transcript "[Audio detected - transcript not available"
   = false).
Proof.
  intros Htrim. unfold transcriptBox.
  destruct (Js.str_includes transcript
              "[Audio detected - transcript not available") eqn:Elong.
  - assert (Eshort : Js.str_includes transcript "[Audio detected" = true)
      by (apply (str_includes_prefix _ _ _ (eq_refl : String.prefix
            "[Audio detected" "[Audio detected - transcript not available"
            = true) Elong)).
    assert (Ebr : Js.str_includes transcript "[" = true)
      by (apply (str_includes_prefix _ _ _ (eq_refl : String.prefix
            "[" "[Audio detected - transcript not available" = true) Elong)).
    assert (Hne : transcript <> "") by (intros ->; discriminate).
    assert (Htr : trim transcript <> "")
      by (intros E; rewrite (Htrim _ E) in Ebr; discriminate).
    apply truthy_str_iff in Hne as Ht. rewrite Ht, Eshort.
    rewrite andb_false_r. cbn.
    repeat split; intros; intuition (discriminate || congruence).
  - destruct (Js.truthy_str transcript) eqn:Ht; cbn.
    + apply truthy_str_iff in Ht.
      destruct (Js.truthy_str (trim transcript)) eqn:Htt; cbn.
      * apply truthy_str_iff in Htt.
        repeat split; intros; intuition (discriminate || congruence).
      * assert (Hblank : trim transcript = "")
          by (destruct (trim transcript); [reflexivity | discriminate]).
        assert (Eshort : Js.str_includes transcript "[Audio detected"
                         = false).
        { destruct (Js.str_includes transcript "[Audio detected") eqn:E;
            [| reflexivity].
          pose proof (str_includes_prefix "[" "[Audio detected" _ eq_refl E)
            as Ebr.
          rewrite (Htrim _ Hblank) in Ebr. discriminate. }
        rewrite Eshort.
        repeat split; intros; intuition (discriminate || congruence).
    + assert (Hs : transcript = "")
        by (destruct transcript; [reflexivity | discriminate]).
      repeat split; intros; intuition (discriminate || congruence).
Qed.

Lemma transcriptBox_cases_witness :
  transcriptBox ascii_trim "[Audio detected] hello" = Quotation <->
  "[Audio detected] hello" <> "" /\
  ascii_trim "[Audio detected] hello" <> "" /\
  Js.str_includes "[Audio detected] hello"
    "[Audio detected - transcript not available" = false.
Proof.
  exact (proj2 (proj2 (transcriptBox_cases ascii_trim
                         "[Audio detected] hello" ascii_trim_blank))).
Defined.

End TranscriptProperties.

(** * The timeline page between a state change and its effect *)

Section RenderProperties.

Import Timeline TimelinePage TimelineRender.

(** On a page that satisfies the invariant, a step of [TimelinePage] is
    the state change followed, when a dependency changed, by the effect. *)
Lemma step_update (toLowerCase : string -> string)
    (e : TimelinePage.Event) (p : Page) :
  PageInv toLowerCase p ->
  TimelinePage.step toLowerCase e p
  = match update e p with
    | Some (p', true) => Some (effect toLowerCase p')
    | Some (p', false) => Some p'
    | None => None
    end.
Proof.
  intros HP. destruct e; cbn [TimelinePage.step update].
  - destruct (loading p) eqn:Hl; [| reflexivity].
    destruct response as [data |]; [reflexivity |].
    destruct (page_loading toLowerCase p HP Hl) as (Hd & _).
    unfold effect. cbn. rewrite Hd. reflexivity.
  - destruct (showsTimeline p); [| reflexivity].
    destruct (String.eqb value (searchTerm p)); reflexivity.
  - destruct (showsTimeline p
              && (negb (Js.truthy_str value)
                  || Js.includes (getAllTopics p) value)); [| reflexivity].
    destruct (Js.truthy_str value); reflexivity.
  - destruct (showsTimeline p && Js.includes (selectedTopics p) topic);
      reflexivity.
  - destruct (showsTimeline p && (length (filteredSegments p) =? 0)%nat);
      reflexivity.
Qed.

(** The page of a view on which no effect is pending is a page that
    [TimelinePage] reaches, and so is the page a pending effect will
    produce. *)
Lemma view_settles (toLowerCase : string -> string) (v : View) :
  TimelineRender.reachable toLowerCase v ->
  TimelinePage.reachable toLowerCase
    (if effectPending v then effect toLowerCase (page v) else page v).
Proof.
  induction 1 as [| v v' e _ IH Hstep].
  - apply TimelinePage.reach_init.
  - destruct e as [e' |]; cbn [TimelineRender.step] in Hstep.
    + destruct (effectPending v) eqn:Hpend; [discriminate |].
      pose proof (step_update toLowerCase e' (page v)
                    (reachable_PageInv toLowerCase _ IH)) as Hfused.
      destruct (update e' (page v)) as [[p' changed] |]; [| discriminate].
      injection Hstep as <-. cbn [effectPending page].
      destruct changed;
        exact (TimelinePage.reach_step toLowerCase (page v) _ e' IH Hfused).
    + destruct (effectPending v) eqn:Hpend; [| discriminate].
      injection Hstep as <-. exact IH.
Qed.

Lemma PageInv_topics_alone (toLowerCase : string -> string) (p : Page) :
  PageInv toLowerCase p ->
  searchTerm p = "" ->
  selectedTopics p <> [] ->
  filteredSegments p <> [].
Proof.
  intros HP Hterm Hsel.
  destruct (selectedTopics p) as [| t sel] eqn:Es; [congruence |].
  assert (Hin : In t (getAllTopics p))
    by (apply (page_topics toLowerCase p HP); rewrite Es; now left).
  destruct (getAllTopics_In p t Hin) as (data & seg & Hd & Hseg & Ht).
  pose proof (page_sync toLowerCase p HP) as Hsync.
  rewrite Hd, Hterm, Es in Hsync. unfold filtered_of in Hsync.
  cbn [Js.truthy_str length Nat.ltb Nat.leb] in Hsync.
  assert (Hkeep : In seg (filteredSegments p)).
  { rewrite Hsync. apply filter_In. split; [exact Hseg |].
    apply matches_topics_iff. exists t. split; [exact Ht | now left]. }
  intros E. rewrite E in Hkeep. destruct Hkeep.
Qed.

Lemma PageInv_in_sync (toLowerCase : string -> string) (p : Page) :
  PageInv toLowerCase p ->
  (showsTimeline p = true ->
   exists data,
     timelineData p = Some data /\
     filteredSegments p
     = filtered_of toLowerCase data (searchTerm p) (selectedTopics p)) /\
  (timelineData p = None -> filteredSegments p = []).
Proof.
  intros HP. pose proof (page_sync toLowerCase p HP) as Hsync. split.
  - intros Hshow. pose proof (page_loaded toLowerCase p HP Hshow) as Hd.
    destruct (timelineData p) as [data |]; [| congruence].
    exists data. split; [reflexivity | exact Hsync].
  - intros Hd. rewrite Hd in Hsync. exact Hsync.
Qed.

Lemma demoArrived_reachable :
  TimelineRender.reachable ascii_toLowerCase demoArrived.
Proof.
  apply (TimelineRender.reach_step ascii_toLowerCase initView demoArrived
           (Handle (FetchSettled (Some demoData)))).
  - apply TimelineRender.reach_init.
  - vm_compute. reflexivity.
Qed.

Lemma demoSettled_reachable :
  TimelineRender.reachable ascii_toLowerCase demoSettled.
Proof.
  apply (TimelineRender.reach_step ascii_toLowerCase demoArrived demoSettled
           RunEffect).
  - exact demoArrived_reachable.
  - vm_compute. reflexivity.
Qed.

Lemma demoChosen_reachable :
  TimelineRender.reachable ascii_toLowerCase demoChosen.
Proof.
  apply (TimelineRender.reach_step ascii_toLowerCase demoSettled demoChosen
           (Handle (SelectTopic "Plans"))).
  - exact demoSettled_reachable.
  - vm_compute. reflexivity.
Qed.

Lemma demoFiltered_reachable :
  TimelineRender.reachable ascii_toLowerCase demoFiltered.
Proof.
  apply (TimelineRender.reach_step ascii_toLowerCase demoChosen demoFiltered
           RunEffect).
  - exact demoChosen_reachable.
  - vm_compute. reflexivity.
Qed.

(** X14: on every reachable view of the page on which no effect is
    pending, the segments on display are those the filter selects for the
    current search term and topics (and none while no result is loaded).
    On a view whose effect is pending, which shows the list of the
    previous term and topics, the effect runs next and yields such a
    view. *)
Theorem filteredSegments_in_sync (toLowerCase : string -> string)
    (v : View) :
  TimelineRender.reachable toLowerCase v ->
  (effectPending v = false ->
   (showsTimeline (page v) = true ->
    exists data,
      timelineData (page v) = Some data /\
      filteredSegments (page v)
      = filtered_of toLowerCase data (searchTerm (page v))
          (selectedTopics (page v))) /\
   (timelineData (page v) = None -> filteredSegments (page v) = [])) /\
  (effectPending v = true ->
   exists v',
     TimelineRender.step toLowerCase RunEffect v = Some v' /\
     effectPending v' = false /\
     searchTerm (page v') = searchTerm (page v) /\
     selectedTopics (page v') = selectedTopics (page v) /\
     (showsTimeline (page v') = true ->
      exists data,
        timelineData (page v') = Some data /\
        filteredSegments (page v')
        = filtered_of toLowerCase data (searchTerm (page v'))
            (selectedTopics (page v')))).
Proof.
  intros Hv. pose proof (view_settles toLowerCase v Hv) as Hp. split.
  - intros Hpend. rewrite Hpend in Hp.
    exact (PageInv_in_sync toLowerCase _ (reachable_PageInv toLowerCase _ Hp)).
  - intros Hpend. rewrite Hpend in Hp.
    exists (mkView (effect toLowerCase (page v)) false).
    split; [cbn [TimelineRender.step]; rewrite Hpend; reflexivity |].
    split; [reflexivity |]. cbn [page].
    assert (Hsame : searchTerm (effect toLowerCase (page v))
                    = searchTerm (page v) /\
                    selectedTopics (effect toLowerCase (page v))
                    = selectedTopics (page v)).
    { unfold effect, filterSegments.
      destruct (timelineData (page v)); split; reflexivity. }
    split; [exact (proj1 Hsame) |]. split; [exact (proj2 Hsame) |].
    exact (proj1 (PageInv_in_sync toLowerCase _
                    (reachable_PageInv toLowerCase _ Hp))).
Qed.

Lemma filteredSegments_in_sync_witness :
  (exists data,
     timelineData (page demoFiltered) = Some data /\
     filteredSegments (page demoFiltered)
     = filtered_of ascii_toLowerCase data (searchTerm (page demoFiltered))
         (selectedTopics (page demoFiltered))) /\
  exists v',
    TimelineRender.step ascii_toLowerCase RunEffect demoChosen = Some v' /\
    effectPending v' = false.
Proof.
  split.
  - apply (proj1 (filteredSegments_in_sync ascii_toLowerCase demoFiltered
                    demoFiltered_reachable)).
    + reflexivity.
    + vm_compute. reflexivity.
  - destruct (proj2 (filteredSegments_in_sync ascii_toLowerCase demoChosen
                       demoChosen_reachable) eq_refl)
      as (v' & Hstep & Hpend & _).
    exists v'. split; [exact Hstep | exact Hpend].
Defined.

(** The render committed when the results arrive shows the timeline with
    an empty list, and the one committed when a topic is chosen shows the
    list of the previous selection: their effects have yet to run. *)
Example stale_renders :
  showsTimeline (page demoArrived) = true /\
  filteredSegments (page demoArrived) = [] /\
  map Segment.id (filteredSegments (page demoChosen)) = [0; 1] /\
  map Segment.id (filteredSegments (page demoFiltered)) = [1].
Proof. repeat split. Qed.

(** X16: on a reachable view of the page on which no effect is pending
    and whose search term is empty, a selection of topics never empties
    the list: if some topic is selected, at least one segment is shown. *)
Theorem topics_alone_match (toLowerCase : string -> string) (v : View) :
  TimelineRender.reachable toLowerCase v ->
  effectPending v = false ->
  searchTerm (page v) = "" ->
  selectedTopics (page v) <> [] ->
  filteredSegments (page v) <> [].
Proof.
  intros Hv Hpend Hterm Hsel.
  pose proof (view_settles toLowerCase v Hv) as Hp. rewrite Hpend in Hp.
  exact (PageInv_topics_alone toLowerCase _
           (reachable_PageInv toLowerCase _ Hp) Hterm Hsel).
Qed.

Lemma topics_alone_match_witness :
  filteredSegments (page demoFiltered) <> [].
Proof.
  apply (topics_alone_match ascii_toLowerCase demoFiltered
           demoFiltered_reachable).
  - reflexivity.
  - vm_compute. reflexivity.
  - vm_compute. discriminate.
Defined.

End RenderProperties.
